(** * go-peerflix: the torrent client (client.go)

    A shallow embedding of [client.go] and the properties of its readiness
    gate, progress reporter, largest-file selection, construction and
    teardown.

    Go's [int64] values are integers of [Z]; [float64] arithmetic is the
    module [F64] below (round to nearest, ties to even, 53-bit significand,
    gradual underflow, overflow to infinity).  The download engine
    (github.com/anacrolix/torrent), the operating system and the network are
    outside the file: their answers are the fields of [Env], their state is
    [World] and the engine records. *)

From stdpp Require Import base list strings gmap.
From Stdlib Require Import ZArith QArith Qround Qpower Lqa Lia Bool Floats.
From Stdlib Require Strings.Byte.

Close Scope Q_scope.

(** * Go base types *)

(** A Go [error] value, by its message. *)
Definition error : Type := string.

(** A Go result pair [(value, err)] with [err] nil or not. *)
Inductive Result (A : Type) : Type :=
| Ok (a : A)
| Err (e : error).
Arguments Ok {A} a.
Arguments Err {A} e.

Definition quote : string := String (Ascii.ascii_of_nat 34) EmptyString.

(** Two's complement wrap-around of a 64-bit signed result. *)
Definition int64_wrap (z : Z) : Z := ((z + 2 ^ 63) mod 2 ^ 64 - 2 ^ 63)%Z.

(** [a - b] on [int64]. *)
Definition int64_sub (a b : Z) : Z := int64_wrap (a - b).

(** The conversion [uint64(x)] of an [int64]. *)
Definition uint64 (z : Z) : Z := (z mod 2 ^ 64)%Z.

(** * IEEE 754 binary64, as Go's float64 *)

Module F64.
Local Open Scope Q_scope.

Definition prec : Z := 53.
Definition emin : Z := -1074.
Definition emax : Z := 1024.

Definition pow2 (k : Z) : Q := 2 ^ k.

(** [ilog2 x] is the integer [k] with [2^k <= x < 2^(k+1)], for [x > 0]. *)
Definition ilog2 (x : Q) : Z :=
  let n := Qnum x in
  let d := Zpos (Qden x) in
  let k := (Z.log2 n - Z.log2 d)%Z in
  if (n * 2 ^ Z.log2 d <? d * 2 ^ Z.log2 n)%Z then (k - 1)%Z else k.

(** Nearest integer, ties to the even one. *)
Definition rne (q : Q) : Z :=
  let f := Qfloor q in
  match Qcompare (q - inject_Z f) (1 # 2) with
  | Lt => f
  | Gt => (f + 1)%Z
  | Eq => if Z.even f then f else (f + 1)%Z
  end.

(** The exponent of the unit in the last place of [x]: 53 significant bits,
    never below the subnormal exponent [emin]. *)
Definition expo (x : Q) : Z := Z.max (ilog2 x - (prec - 1)) emin.

(** Rounding of a magnitude to the nearest binary64 magnitude, exponent not
    yet bounded above. *)
Definition round_mag (x : Q) : Q :=
  if (Qnum x <=? 0)%Z then 0
  else Qred (inject_Z (rne (x / pow2 (expo x))) * pow2 (expo x)).

(** A binary64 value: not-a-number, an infinity with its sign, or a finite
    value given by sign and magnitude (a zero keeps its sign). *)
Inductive float64 : Type :=
| NaN
| Inf (s : bool)
| Fin (s : bool) (m : Q).

(** Round and pack: a rounded magnitude of [2^1024] or more overflows. *)
Definition pack (s : bool) (x : Q) : float64 :=
  let r := round_mag x in
  if Qle_bool (pow2 emax) r then Inf s else Fin s r.

Definition is_zero (m : Q) : bool := (Qnum m =? 0)%Z.

(** The conversion [float64(n)] of an integer. *)
Definition of_int (n : Z) : float64 := pack (n <? 0)%Z (inject_Z (Z.abs n)).

Definition div (x y : float64) : float64 :=
  match x, y with
  | NaN, _ | _, NaN => NaN
  | Inf _, Inf _ => NaN
  | Inf sx, Fin sy _ => Inf (xorb sx sy)
  | Fin sx _, Inf sy => Fin (xorb sx sy) 0
  | Fin sx mx, Fin sy my =>
      if is_zero my then (if is_zero mx then NaN else Inf (xorb sx sy))
      else pack (xorb sx sy) (mx / my)
  end.

Definition mul (x y : float64) : float64 :=
  match x, y with
  | NaN, _ | _, NaN => NaN
  | Inf sx, Inf sy => Inf (xorb sx sy)
  | Inf sx, Fin sy my => if is_zero my then NaN else Inf (xorb sx sy)
  | Fin sx mx, Inf sy => if is_zero mx then NaN else Inf (xorb sx sy)
  | Fin sx mx, Fin sy my => pack (xorb sx sy) (mx * my)
  end.

Definition val (s : bool) (m : Q) : Q := if s then - m else m.

(** [x > y]; false as soon as one side is not a number. *)
Definition gtb (x y : float64) : bool :=
  match x, y with
  | NaN, _ | _, NaN => false
  | Inf sx, Inf sy => negb sx && sy
  | Inf sx, Fin _ _ => negb sx
  | Fin _ _, Inf sy => sy
  | Fin sx mx, Fin sy my =>
      match Qcompare (val sy my) (val sx mx) with Lt => true | _ => false end
  end.

(** Whether two values are the same one (magnitudes in lowest terms). *)
Definition same (x y : float64) : bool :=
  match x, y with
  | NaN, NaN => true
  | Inf s, Inf s' => Bool.eqb s s'
  | Fin s m, Fin s' m' =>
      Bool.eqb s s' && (Qnum m =? Qnum m')%Z && (Qden m =? Qden m')%positive
  | _, _ => false
  end.

(** Order of the non-negative values, infinity on top. *)
Definition le_nonneg (x y : float64) : Prop :=
  match x, y with
  | Fin false mx, Fin false my => 0 <= mx /\ mx <= my
  | Fin false mx, Inf false => 0 <= mx
  | Inf false, Inf false => True
  | _, _ => False
  end.

End F64.

(** ** The same arithmetic on the kernel's binary64 numbers

    [PrimFloat] is the processor's binary64; it serves to compare [F64] with
    the hardware on samples. *)

Module Hw.

Definition of_spec (f : spec_float) : F64.float64 :=
  match f with
  | S754_zero s => F64.Fin s 0
  | S754_infinity s => F64.Inf s
  | S754_nan => F64.NaN
  | S754_finite s m e => F64.Fin s (Qred (inject_Z (Zpos m) * F64.pow2 e))
  end.

Definition of_int64 (n : Z) : PrimFloat.float :=
  if (n <? 0)%Z then (- PrimFloat.of_uint63 (Uint63.of_Z (- n)))%float
  else PrimFloat.of_uint63 (Uint63.of_Z n).

Definition percentage (bytesCompleted length : Z) : PrimFloat.float :=
  (of_int64 bytesCompleted / of_int64 length * of_int64 100)%float.

Definition ReadyForPlayback (bytesCompleted length : Z) : bool :=
  PrimFloat.ltb (of_int64 5) (percentage bytesCompleted length).

(** Byte counts around the point where binary64 stops representing every
    integer, and up to the largest [int64]. *)
Definition large_counts : list Z :=
  [1; 3; 7; 20; 2 ^ 52 + 1; 2 ^ 53 - 1; 2 ^ 53; 2 ^ 53 + 1; 2 ^ 53 + 2;
   2 ^ 53 + 3; 2 ^ 60 + 12345; 2 ^ 62 + 2 ^ 9 + 1; 2 ^ 63 - 1]%Z.

End Hw.

(** * The download engine (github.com/anacrolix/torrent), at its interface *)

Inductive piecePriority : Type :=
| PiecePriorityNone
| PiecePriorityNormal
| PiecePriorityReadahead
| PiecePriorityNext
| PiecePriorityNow.

(** One entry of [t.Pieces]. *)
Record piece : Type := mkPiece {
  Priority : piecePriority;
  Complete : bool
}.

(** [torrent.File]; its zero value is [File_zero]. *)
Record torrent_File : Type := mkFile {
  File_DisplayPath : string;
  File_Offset : Z;
  File_Length : Z
}.

Definition File_zero : torrent_File :=
  {| File_DisplayPath := EmptyString; File_Offset := 0; File_Length := 0 |}.

(** What the handle [torrent.Torrent] gives access to. [Torrent_GotInfo]
    says whether the channel [t.GotInfo()] is closed (metadata available);
    [Torrent_DownloadAllCalls] counts the calls of [t.DownloadAll()]. *)
Record torrent_Torrent : Type := mkTorrent {
  Torrent_Name : string;
  Torrent_BytesCompleted : Z;
  Torrent_Length : Z;
  Torrent_Files : list torrent_File;
  Torrent_Pieces : list piece;
  Torrent_Conns : nat;
  Torrent_GotInfo : bool;
  Torrent_DownloadAllCalls : nat
}.

Definition Torrent_zero : torrent_Torrent :=
  {| Torrent_Name := EmptyString; Torrent_BytesCompleted := 0; Torrent_Length := 0;
     Torrent_Files := []; Torrent_Pieces := []; Torrent_Conns := 0;
     Torrent_GotInfo := false; Torrent_DownloadAllCalls := 0 |}.

Record torrent_Config : Type := mkConfig {
  DataDir : string;
  NoUpload : bool;
  Seed : bool
}.

(** The calls an engine session receives, in the order it receives them. *)
Inductive EngineCall : Type :=
| CallAddMagnet (uri : string)
| CallAddTorrentFromFile (path : string)
| CallDrop
| CallClose.

(** The engine session behind [*torrent.Client]. *)
Record torrent_Client : Type := mkSession {
  Session_Config : torrent_Config;
  Session_HasTorrent : bool;
  Session_Closed : bool;
  Session_Calls : list EngineCall
}.

Definition Session_record (call : EngineCall) (cl : torrent_Client) : torrent_Client :=
  {| Session_Config := Session_Config cl;
     Session_HasTorrent := Session_HasTorrent cl;
     Session_Closed := Session_Closed cl;
     Session_Calls := Session_Calls cl ++ [call] |}.

(** [t.Drop()]: the session forgets the torrent. *)
Definition Torrent_Drop (cl : torrent_Client) : torrent_Client :=
  let cl := Session_record CallDrop cl in
  {| Session_Config := Session_Config cl;
     Session_HasTorrent := false;
     Session_Closed := Session_Closed cl;
     Session_Calls := Session_Calls cl |}.

(** [cl.Close()]: the session stops. *)
Definition Client_Close (cl : torrent_Client) : torrent_Client :=
  let cl := Session_record CallClose cl in
  {| Session_Config := Session_Config cl;
     Session_HasTorrent := Session_HasTorrent cl;
     Session_Closed := true;
     Session_Calls := Session_Calls cl |}.

(** * Operating system and network *)

Record http_Response : Type := mkResponse {
  StatusCode : Z;
  Body : list Byte.byte
}.

(** The files on disk and the lines written by [log.Printf]. *)
Record World : Type := mkWorld {
  fs : gmap string (list Byte.byte);
  logged : list string
}.

(** The answers of the collaborators. *)
Record Env : Type := mkEnv {
  os_TempDir : string;
  (** [torrent.NewClient]: the error it returns, if any. *)
  torrent_NewClient_fault : torrent_Config -> option error;
  (** [c.AddMagnet]: the torrent it adds, or its error. *)
  AddMagnet_outcome : string -> Result torrent_Torrent;
  (** [c.AddTorrentFromFile]: the torrent read from a file of that name and
      content, or its error. *)
  AddTorrentFromFile_outcome : string -> list Byte.byte -> Result torrent_Torrent;
  (** [ioutil.TempFile]: the name of the file it creates, or its error. *)
  ioutil_TempFile_outcome : string -> string -> Result string;
  (** [http.Get]: the response, whatever its status, or a transport error. *)
  http_Get : string -> Result http_Response;
  (** [io.Copy] into the named file: the number of bytes after which it
      fails and its error, if it fails. *)
  io_Copy_fault : string -> option (nat * error);
  File_Close_fault : string -> option error;
  Body_Close_fault : option error;
  (** [t.DownloadAll()]: the priorities it leaves on the pieces. *)
  DownloadAll_pieces : list piece -> list piece
}.

(** Stateful code: a function of the world. *)
Definition IO (A : Type) : Type := World -> A * World.

Definition ret {A : Type} (a : A) : IO A := fun w => (a, w).

Definition bind {A B : Type} (m : IO A) (k : A -> IO B) : IO B :=
  fun w => let (a, w') := m w in k a w'.

Notation "'let*' x ':=' m 'in' k" := (bind m (fun x => k))
  (at level 10, x name, m at level 100, k at level 200).
Notation "'run' m 'then' k" := (bind m (fun _ => k))
  (at level 10, m at level 100, k at level 200).

Definition log_Printf (line : string) : IO unit :=
  fun w => (tt, {| fs := fs w; logged := logged w ++ [line] |}).

Definition write_file (name : string) (data : list Byte.byte) : IO unit :=
  fun w => (tt, {| fs := <[name := data]> (fs w); logged := logged w |}).

Definition read_file (name : string) : IO (option (list Byte.byte)) :=
  fun w => (fs w !! name, w).

(** [os.Stat(name)], for its error only. *)
Definition os_Stat (name : string) : IO (option error) :=
  let* content := read_file name in
  ret (match content with
       | Some _ => None
       | None => Some ("stat " +:+ name +:+ ": no such file or directory")
       end).

(** [ioutil.TempFile(dir, prefix)]: a new, empty file. *)
Definition ioutil_TempFile (env : Env) (dir pre : string) : IO (Result string) :=
  match ioutil_TempFile_outcome env dir pre with
  | Err e => ret (Err e)
  | Ok name => run write_file name [] then ret (Ok name)
  end.

(** [io.Copy(file, body)]: appends the body to the file, all of it unless it
    fails on the way. *)
Definition io_Copy (env : Env) (file : string) (body : list Byte.byte) : IO (option error) :=
  let* content := read_file file in
  let old := default [] content in
  match io_Copy_fault env file with
  | None => run write_file file (old ++ body) then ret None
  | Some (n, e) => run write_file file (old ++ take n body) then ret (Some e)
  end.

(** The deferred [file.Close()] of [downloadFile], logging its error. *)
Definition deferred_file_Close (env : Env) (file : string) : IO unit :=
  match File_Close_fault env file with
  | Some e => log_Printf ("Error closing torrent file: " +:+ e)
  | None => ret tt
  end.

(** The deferred [response.Body.Close()] of [downloadFile]. *)
Definition deferred_Body_Close (env : Env) : IO unit :=
  match Body_Close_fault env with
  | Some e => log_Printf ("Error closing torrent file: " +:+ e)
  | None => ret tt
  end.

(** [torrent.NewClient(cfg)]. *)
Definition torrent_NewClient (env : Env) (cfg : torrent_Config) : Result torrent_Client :=
  match torrent_NewClient_fault env cfg with
  | Some e => Err e
  | None => Ok {| Session_Config := cfg; Session_HasTorrent := false;
                  Session_Closed := false; Session_Calls := [] |}
  end.

Definition Session_add (call : EngineCall) (ok : bool) (cl : torrent_Client) : torrent_Client :=
  let cl := Session_record call cl in
  {| Session_Config := Session_Config cl;
     Session_HasTorrent := Session_HasTorrent cl || ok;
     Session_Closed := Session_Closed cl;
     Session_Calls := Session_Calls cl |}.

(** [c.AddMagnet(uri)]: the result and the session afterwards. *)
Definition Client_AddMagnet (env : Env) (cl : torrent_Client) (uri : string)
  : Result torrent_Torrent * torrent_Client :=
  match AddMagnet_outcome env uri with
  | Ok t => (Ok t, Session_add (CallAddMagnet uri) true cl)
  | Err e => (Err e, Session_add (CallAddMagnet uri) false cl)
  end.

(** [c.AddTorrentFromFile(path)]: the engine reads the file. *)
Definition Client_AddTorrentFromFile (env : Env) (cl : torrent_Client) (path : string)
  : IO (Result torrent_Torrent * torrent_Client) :=
  let* content := read_file path in
  match content with
  | None =>
      ret (Err ("open " +:+ path +:+ ": no such file or directory"),
           Session_add (CallAddTorrentFromFile path) false cl)
  | Some data =>
      match AddTorrentFromFile_outcome env path data with
      | Ok t => ret (Ok t, Session_add (CallAddTorrentFromFile path) true cl)
      | Err e => ret (Err e, Session_add (CallAddTorrentFromFile path) false cl)
      end
  end.

(** [t.DownloadAll()]. *)
Definition Torrent_DownloadAll (env : Env) (t : torrent_Torrent) : torrent_Torrent :=
  {| Torrent_Name := Torrent_Name t;
     Torrent_BytesCompleted := Torrent_BytesCompleted t;
     Torrent_Length := Torrent_Length t;
     Torrent_Files := Torrent_Files t;
     Torrent_Pieces := DownloadAll_pieces env (Torrent_Pieces t);
     Torrent_Conns := Torrent_Conns t;
     Torrent_GotInfo := Torrent_GotInfo t;
     Torrent_DownloadAllCalls := S (Torrent_DownloadAllCalls t) |}.

Definition Torrent_set_Pieces (ps : list piece) (t : torrent_Torrent) : torrent_Torrent :=
  {| Torrent_Name := Torrent_Name t;
     Torrent_BytesCompleted := Torrent_BytesCompleted t;
     Torrent_Length := Torrent_Length t;
     Torrent_Files := Torrent_Files t;
     Torrent_Pieces := ps;
     Torrent_Conns := Torrent_Conns t;
     Torrent_GotInfo := Torrent_GotInfo t;
     Torrent_DownloadAllCalls := Torrent_DownloadAllCalls t |}.

(** * client.go *)

(** [isHTTP], the regular expression [^https?:\/\/]. *)
Definition isHTTP (s : string) : bool :=
  String.prefix "http://" s || String.prefix "https://" s.

(** [ClientError] formats errors coming from the client. *)
Record ClientError : Type := mkClientError {
  Type_ : string;
  Origin : error
}.


(** [Client] manages the torrent downloading. [Client_] is the field
    [Client *torrent.Client], nil until the engine session exists. *)
Record Client : Type := mkClient {
  Client_ : option torrent_Client;
  Torrent : torrent_Torrent;
  Progress : Z;
  Port : Z
}.

Definition set_Client (cl : torrent_Client) (c : Client) : Client :=
  {| Client_ := Some cl; Torrent := Torrent c; Progress := Progress c; Port := Port c |}.

Definition set_Torrent (t : torrent_Torrent) (c : Client) : Client :=
  {| Client_ := Client_ c; Torrent := t; Progress := Progress c; Port := Port c |}.

Definition set_Progress (p : Z) (c : Client) : Client :=
  {| Client_ := Client_ c; Torrent := Torrent c; Progress := p; Port := Port c |}.

(** [downloadFile]: the pair [(fileName, err)] it returns. *)
Definition downloadFile (env : Env) (URL : string) : IO (string * option error) :=
  let* created := ioutil_TempFile env (os_TempDir env) "torrent-imageviewer" in
  match created with
  | Err e => ret (EmptyString, Some e)
  | Ok file =>
      match http_Get env URL with
      | Err e =>
          run deferred_file_Close env file then
          ret (EmptyString, Some e)
      | Ok response =>
          let* err := io_Copy env file (Body response) in
          run deferred_Body_Close env then
          run deferred_file_Close env file then
          ret (file, err)
      end
  end.

(** The goroutines [NewClient] starts. *)
Inductive goroutine : Type :=
| go_NewClient_func1.

(** What [NewClient] returns, and what it leaves running. *)
Record NewClient_result : Type := mkResult {
  result_client : Client;
  result_err : option ClientError;
  result_go : list goroutine
}.

Definition failed (client : Client) (type : string) (origin : error) : NewClient_result :=
  {| result_client := client;
     result_err := Some {| Type_ := type; Origin := origin |};
     result_go := [] |}.

Definition started (client : Client) : NewClient_result :=
  {| result_client := client; result_err := None; result_go := [go_NewClient_func1] |}.

(** [NewClient] creates a new torrent client based on a magnet or a torrent
    file. If the torrent file is on http, we try downloading it. *)
Definition NewClient (env : Env) (torrentPath : string) (port : Z) (seed : bool)
  : IO NewClient_result :=
  let client := {| Client_ := None; Torrent := Torrent_zero; Progress := 0; Port := port |} in
  match torrent_NewClient env
          {| DataDir := os_TempDir env; NoUpload := negb seed; Seed := seed |} with
  | Err e => ret (failed client "creating torrent client" e)
  | Ok c =>
      if String.prefix "magnet:" torrentPath then
        match Client_AddMagnet env c torrentPath with
        | (Err e, c) => ret (failed (set_Client c client) "adding torrent" e)
        | (Ok t, c) => ret (started (set_Torrent t (set_Client c client)))
        end
      else
        let* fetched :=
          (if isHTTP torrentPath then downloadFile env torrentPath
           else ret (torrentPath, None)) in
        match fetched with
        | (_, Some e) => ret (failed (set_Client c client) "downloading torrent file" e)
        | (torrentPath, None) =>
            let* err := os_Stat torrentPath in
            match err with
            | Some e => ret (failed (set_Client c client) "file not found" e)
            | None =>
                let* added := Client_AddTorrentFromFile env c torrentPath in
                match added with
                | (Err e, c) =>
                    ret (failed (set_Client c client) "adding torrent to the client" e)
                | (Ok t, c) => ret (started (set_Torrent t (set_Client c client)))
                end
            end
        end
  end.

(** [t.Pieces[i].Priority = torrent.PiecePriorityReadahead]. The index is
    below [len(t.Pieces)] wherever the loop below uses it. *)
Definition with_Readahead (p : piece) : piece :=
  {| Priority := PiecePriorityReadahead; Complete := Complete p |}.

Definition prioritize (i : nat) (ps : list piece) : list piece :=
  alter with_Readahead i ps.

(** The loop [for i := 0; i < len(t.Pieces)/100*5; i++]. *)
Fixpoint readahead_loop (fuel : nat) (i : nat) (ps : list piece) : list piece :=
  match fuel with
  | O => ps
  | S fuel =>
      if (i <? length ps / 100 * 5)%nat
      then readahead_loop fuel (S i) (prioritize i ps)
      else ps
  end.

(** The goroutine of [NewClient]: it waits on [t.GotInfo()] ([None] while the
    metadata is missing), then calls [t.DownloadAll()] and prioritizes the
    first pieces. *)
Definition NewClient_func1 (env : Env) (t : torrent_Torrent) : option torrent_Torrent :=
  if Torrent_GotInfo t then
    let t := Torrent_DownloadAll env t in
    Some (Torrent_set_Pieces
            (readahead_loop (length (Torrent_Pieces t)) 0 (Torrent_Pieces t)) t)
  else None.

(** [Close] cleans up the connections. [None] is the nil dereference of a
    client whose engine session was never created (such a client has no
    torrent to drop either). *)
Definition Close (c : Client) : option Client :=
  match Client_ c with
  | None => None
  | Some cl =>
      let cl := Torrent_Drop cl in
      let cl := Client_Close cl in
      Some (set_Client cl c)
  end.

Definition percentage (c : Client) : F64.float64 :=
  F64.mul
    (F64.div (F64.of_int (Torrent_BytesCompleted (Torrent c)))
             (F64.of_int (Torrent_Length (Torrent c))))
    (F64.of_int 100).

(** [ReadyForPlayback] checks if the torrent is ready for playback or not.
    we wait until 5% of the torrent to start playing. *)
Definition ReadyForPlayback (c : Client) : bool :=
  F64.gtb (percentage c) (F64.of_int 5).

(** What [Render] prints, item by item. *)
Inductive Printed : Type :=
| PrintClearScreen
| PrintLine (s : string)
| PrintStream (port : Z)
| PrintProgress (complete size : string) (percent : F64.float64)
| PrintSpeed (speed : string)
| PrintConnections (n : nat).

(** The number handed to [humanize.Bytes] for the speed:
    [uint64(currentProgress-c.Progress)]. *)
Definition speed_bytes (c : Client) : Z :=
  uint64 (int64_sub (Torrent_BytesCompleted (Torrent c)) (Progress c)).

(** [Render] outputs the command line interface for the client.
    [humanize_Bytes] is [humanize.Bytes]. *)
Definition Render (humanize_Bytes : Z -> string) (c : Client) : Client * list Printed :=
  let t := Torrent c in
  let currentProgress := Torrent_BytesCompleted t in
  let speed := humanize_Bytes (speed_bytes c) +:+ "/s" in
  let c := set_Progress currentProgress c in
  let complete := humanize_Bytes (uint64 currentProgress) in
  let size := humanize_Bytes (uint64 (Torrent_Length t)) in
  (c,
   [PrintClearScreen; PrintLine (Torrent_Name t);
    PrintLine "============================================================="]
   ++ (if ReadyForPlayback c then [PrintStream (Port c)] else [])
   ++ (if (currentProgress >? 0)%Z
       then [PrintProgress complete size (percentage c)] else [])
   ++ (if (currentProgress <? Torrent_Length t)%Z then [PrintSpeed speed] else [])
   ++ [PrintConnections (Torrent_Conns t)]).

Fixpoint getLargestFile_loop (files : list torrent_File) (target : torrent_File)
  (maxSize : Z) : torrent_File :=
  match files with
  | [] => target
  | file :: files =>
      if (maxSize <? File_Length file)%Z
      then getLargestFile_loop files file (File_Length file)
      else getLargestFile_loop files target maxSize
  end.

Definition getLargestFile (c : Client) : torrent_File :=
  getLargestFile_loop (Torrent_Files (Torrent c)) File_zero 0.

(** What [GetFile] writes to the response. *)
Inductive Served (Request FileEntry : Type) : Type :=
| http_Error (msg : string) (code : Z)
| http_ServeContent (contentDisposition : string) (r : Request) (name : string)
    (target : torrent_File) (content : FileEntry).
Arguments http_Error {Request FileEntry} msg code.
Arguments http_ServeContent {Request FileEntry} contentDisposition r name target content.

(** [GetFile] is an http handler to serve the biggest file managed by the
    client. [NewFileReader] is the repository's reader constructor, defined
    outside client.go; the deferred [entry.Close()] only logs and is left
    out, as is the modification time [time.Now()]. *)
Definition GetFile {Request FileEntry : Type}
  (NewFileReader : Client -> torrent_File -> Result FileEntry)
  (c : Client) (r : Request) : Served Request FileEntry :=
  let target := getLargestFile c in
  match NewFileReader c target with
  | Err e => http_Error e 500
  | Ok entry =>
      http_ServeContent
        ("attachment; filename=" +:+ quote +:+ Torrent_Name (Torrent c) +:+ quote)
        r (File_DisplayPath target) target entry
  end.

(** The target [GetFile] hands to [http.ServeContent], when it serves. *)
Definition served_target {Request FileEntry : Type}
  (s : Served Request FileEntry) : option torrent_File :=
  match s with
  | http_Error _ _ => None
  | http_ServeContent _ _ _ target _ => Some target
  end.

(** * The quantities the specification speaks of *)

(** [bytesCompleted / totalLength], as a rational number. *)
Definition completed_fraction (c : Client) : Q :=
  (inject_Z (Torrent_BytesCompleted (Torrent c))
   / inject_Z (Torrent_Length (Torrent c)))%Q.


(** [delta / intervalSeconds]. *)
Definition spec_throughput (previous current intervalSeconds : Z) : Q :=
  (inject_Z (current - previous) / inject_Z intervalSeconds)%Q.

(** The configuration [NewClient] passes to the engine. *)
Definition engine_config (env : Env) (seed : bool) : torrent_Config :=
  {| DataDir := os_TempDir env; NoUpload := negb seed; Seed := seed |}.

(** The client [NewClient] starts from, and the engine session it creates. *)
Definition client0 (port : Z) : Client :=
  {| Client_ := None; Torrent := Torrent_zero; Progress := 0; Port := port |}.

Definition session0 (env : Env) (seed : bool) : torrent_Client :=
  {| Session_Config := engine_config env seed; Session_HasTorrent := false;
     Session_Closed := false; Session_Calls := [] |}.

(** The gate as a function of the two converted operands. *)
Definition ready_of (x y : F64.float64) : bool :=
  F64.gtb (F64.mul (F64.div x y) (F64.of_int 100)) (F64.of_int 5).

(** The torrent file [NewClient] goes on with, when the path is no magnet
    link: the download of a remote one, the path itself otherwise. *)
Definition fetch (env : Env) (torrentPath : string) : IO (string * option error) :=
  if isHTTP torrentPath then downloadFile env torrentPath
  else ret (torrentPath, None).


(** * Sample sessions *)

Definition priority_rank (p : piecePriority) : nat :=
  match p with
  | PiecePriorityNone => 0
  | PiecePriorityNormal => 1
  | PiecePriorityReadahead => 2
  | PiecePriorityNext => 3
  | PiecePriorityNow => 4
  end.

Definition raise_priority (to : piecePriority) (p : piece) : piece :=
  if (priority_rank (Priority p) <? priority_rank to)%nat
  then {| Priority := to; Complete := Complete p |} else p.

(** An engine whose [DownloadAll] raises every piece to normal priority and
    the first and last ones to readahead. *)
Definition sample_DownloadAll (ps : list piece) : list piece :=
  let ps := raise_priority PiecePriorityNormal <$> ps in
  let ps := alter (raise_priority PiecePriorityReadahead) 0 ps in
  alter (raise_priority PiecePriorityReadahead) (length ps - 1) ps.

Definition sample_torrent (bytesCompleted length : Z) (files : list torrent_File)
  (pieces : nat) : torrent_Torrent :=
  {| Torrent_Name := "sample"; Torrent_BytesCompleted := bytesCompleted;
     Torrent_Length := length; Torrent_Files := files;
     Torrent_Pieces :=
       replicate pieces {| Priority := PiecePriorityNone; Complete := false |};
     Torrent_Conns := 0; Torrent_GotInfo := true; Torrent_DownloadAllCalls := 0 |}.

Definition sample_session : torrent_Client :=
  {| Session_Config := {| DataDir := "/tmp"; NoUpload := true; Seed := false |};
     Session_HasTorrent := true; Session_Closed := false;
     Session_Calls := [CallAddMagnet "magnet:?xt=urn:btih:sample"] |}.

(** A constructed client whose torrent has the given progress. *)
Definition session (bytesCompleted length : Z) : Client :=
  {| Client_ := Some sample_session;
     Torrent := sample_torrent bytesCompleted length
                  [{| File_DisplayPath := "sample.mkv"; File_Offset := 0;
                      File_Length := length |}] 200;
     Progress := 0; Port := 8080 |}.

(** A client asked for its file before the metadata lists any. *)
Definition session_without_files : Client :=
  {| Client_ := Some sample_session;
     Torrent := sample_torrent 0 0 [] 0;
     Progress := 0; Port := 8080 |}.

Definition sample_files : list torrent_File :=
  [ {| File_DisplayPath := "a.txt"; File_Offset := 0; File_Length := 10 |};
    {| File_DisplayPath := "b.mkv"; File_Offset := 10; File_Length := 700 |};
    {| File_DisplayPath := "c.mkv"; File_Offset := 710; File_Length := 700 |};
    {| File_DisplayPath := "d.srt"; File_Offset := 1410; File_Length := 5 |} ].

Definition session_with_files : Client :=
  {| Client_ := Some sample_session;
     Torrent := sample_torrent 100 1415 sample_files 200;
     Progress := 0; Port := 8080 |}.

(** A server that answers every GET with status 404 and a short body, an
    engine that refuses what is no torrent file. *)
Definition sample_body : list Byte.byte := [Byte.x34; Byte.x30; Byte.x34].

Definition sample_env : Env :=
  {| os_TempDir := "/tmp";
     torrent_NewClient_fault := fun _ => None;
     AddMagnet_outcome := fun _ => Ok (sample_torrent 0 1000 [] 50);
     AddTorrentFromFile_outcome := fun _ _ => Err "bencode: syntax error";
     ioutil_TempFile_outcome := fun dir pre => Ok (dir +:+ "/" +:+ pre +:+ "123");
     http_Get := fun _ => Ok {| StatusCode := 404; Body := sample_body |};
     io_Copy_fault := fun _ => None;
     File_Close_fault := fun _ => None;
     Body_Close_fault := None;
     DownloadAll_pieces := sample_DownloadAll |}.

Definition empty_world : World := {| fs := ∅; logged := [] |}.

(** Whether [F64] and the processor's binary64 give the same percentage and
    the same gate for these byte counts. *)
Definition agrees (bytesCompleted length : Z) : bool :=
  F64.same (Hw.of_spec (FloatOps.Prim2SF (Hw.percentage bytesCompleted length)))
           (percentage (session bytesCompleted length))
  && Bool.eqb (Hw.ReadyForPlayback bytesCompleted length)
              (ReadyForPlayback (session bytesCompleted length)).

(** * Further quantities, for the properties of the code *)

Definition Torrent_set_BytesCompleted (b : Z) (t : torrent_Torrent) : torrent_Torrent :=
  {| Torrent_Name := Torrent_Name t;
     Torrent_BytesCompleted := b;
     Torrent_Length := Torrent_Length t;
     Torrent_Files := Torrent_Files t;
     Torrent_Pieces := Torrent_Pieces t;
     Torrent_Conns := Torrent_Conns t;
     Torrent_GotInfo := Torrent_GotInfo t;
     Torrent_DownloadAllCalls := Torrent_DownloadAllCalls t |}.

(** The same client once the engine reports [b] bytes completed. *)
Definition progressed (b : Z) (c : Client) : Client :=
  set_Torrent (Torrent_set_BytesCompleted b (Torrent c)) c.

(** The largest length among the files, 0 when there is none. *)
Definition max_length (files : list torrent_File) : Z :=
  fold_left Z.max (List.map File_Length files) 0%Z.


(** The line a failed deferred close of [downloadFile] logs. *)
Definition close_log (fault : option error) : list string :=
  match fault with
  | Some e => ["Error closing torrent file: " +:+ e]
  | None => []
  end.

(** A machine whose temporary directory is full, and one without network. *)
Definition full_disk_env : Env :=
  {| os_TempDir := "/tmp";
     torrent_NewClient_fault := fun _ => None;
     AddMagnet_outcome := fun _ => Ok (sample_torrent 0 1000 [] 50);
     AddTorrentFromFile_outcome := fun _ _ => Err "bencode: syntax error";
     ioutil_TempFile_outcome := fun _ _ => Err "no space left on device";
     http_Get := fun _ => Ok {| StatusCode := 200; Body := sample_body |};
     io_Copy_fault := fun _ => None;
     File_Close_fault := fun _ => None;
     Body_Close_fault := None;
     DownloadAll_pieces := sample_DownloadAll |}.

Definition offline_env : Env :=
  {| os_TempDir := "/tmp";
     torrent_NewClient_fault := fun _ => None;
     AddMagnet_outcome := fun _ => Ok (sample_torrent 0 1000 [] 50);
     AddTorrentFromFile_outcome := fun _ _ => Err "bencode: syntax error";
     ioutil_TempFile_outcome := fun dir pre => Ok (dir +:+ "/" +:+ pre +:+ "123");
     http_Get := fun _ => Err "dial tcp: connection refused";
     io_Copy_fault := fun _ => None;
     File_Close_fault := fun _ => None;
     Body_Close_fault := None;
     DownloadAll_pieces := sample_DownloadAll |}.

(** * Facts on the binary64 arithmetic *)

Module F64Facts.
Import F64.
Local Open Scope Q_scope.

Lemma pow2_pos k : 0 < pow2 k.
Proof. apply Qpower_0_lt. reflexivity. Qed.

Lemma pow2_add a b : pow2 (a + b) == pow2 a * pow2 b.
Proof. apply Qpower_plus. discriminate. Qed.

Lemma pow2_Z a : (0 <= a)%Z -> pow2 a == inject_Z (2 ^ a).
Proof. intros H. unfold pow2. rewrite Zpower_Qpower by assumption. reflexivity. Qed.

Lemma pow2_le a b : (a <= b)%Z -> pow2 a <= pow2 b.
Proof. intros H. apply Qpower_le_compat_l; [assumption | discriminate]. Qed.

Lemma pow2_lt_inv a b : pow2 a < pow2 b -> (a < b)%Z.
Proof. intros H. apply (Qpower_lt_compat_l_inv 2); [assumption | reflexivity]. Qed.

Lemma Q_as_frac x : x == inject_Z (Qnum x) / inject_Z (Zpos (Qden x)).
Proof. destruct x as [n d]. simpl. rewrite Qmake_Qdiv. reflexivity. Qed.

Lemma ilog2_spec x : 0 < x -> pow2 (ilog2 x) <= x /\ x < pow2 (ilog2 x + 1).
Proof.
  intros Hx. unfold ilog2.
  assert (Hn : (0 < Qnum x)%Z).
  { destruct x as [n d]. unfold Qlt in Hx. simpl in *. lia. }
  set (n := Qnum x) in *. set (d := Zpos (Qden x)).
  assert (Hd : (0 < d)%Z) by (unfold d; lia).
  pose proof (Z.log2_spec n Hn) as [Hn1 Hn2].
  pose proof (Z.log2_spec d Hd) as [Hd1 Hd2].
  pose proof (Z.log2_nonneg n) as Ha. pose proof (Z.log2_nonneg d) as Hc.
  set (a := Z.log2 n) in *. set (c := Z.log2 d) in *.
  rewrite Z.pow_succ_r in Hn2, Hd2 by assumption.
  assert (HA : pow2 a == inject_Z (2 ^ a)) by (apply pow2_Z; assumption).
  assert (HC : pow2 c == inject_Z (2 ^ c)) by (apply pow2_Z; assumption).
  assert (Hx' : x == inject_Z n / inject_Z d) by apply Q_as_frac.
  assert (HdQ : 0 < inject_Z d) by (change 0 with (inject_Z 0); rewrite <- Zlt_Qlt; lia).
  assert (HCQ : 0 < pow2 c) by apply pow2_pos.
  assert (E1 : pow2 (a - c) == pow2 a / pow2 c).
  { unfold pow2. apply Qpower_minus. discriminate. }
  assert (E0 : pow2 (a - c - 1) == pow2 a / (2 * pow2 c)).
  { replace (a - c - 1)%Z with (a - (c + 1))%Z by lia.
    unfold pow2 at 1. rewrite Qpower_minus by discriminate.
    fold (pow2 a). fold (pow2 (c + 1)). rewrite pow2_add.
    change (pow2 1) with 2. field. intro K. rewrite K in HCQ. discriminate. }
  assert (E2 : pow2 (a - c + 1) == 2 * pow2 a / pow2 c).
  { rewrite pow2_add, E1. change (pow2 1) with 2. field.
    intro K. rewrite K in HCQ. discriminate. }
  destruct (Z.ltb_spec (n * 2 ^ c) (d * 2 ^ a)) as [Hlt | Hge].
  - replace (a - c - 1 + 1)%Z with (a - c)%Z by lia.
    rewrite E0, E1, Hx', HA, HC. split.
    + apply Qle_shift_div_l; [assumption|].
      unfold Qdiv. rewrite <- Qmult_assoc, (Qmult_comm (/ _)), Qmult_assoc.
      apply Qle_shift_div_r.
      { rewrite <- HC. lra. }
      rewrite <- !inject_Z_mult. change 2 with (inject_Z 2).
      rewrite <- !inject_Z_mult. rewrite <- Zle_Qle. nia.
    + apply Qlt_shift_div_r; [assumption|].
      unfold Qdiv. rewrite <- Qmult_assoc, (Qmult_comm (/ _)), Qmult_assoc.
      apply Qlt_shift_div_l.
      { rewrite <- HC. assumption. }
      rewrite <- !inject_Z_mult. rewrite <- Zlt_Qlt. lia.
  - rewrite E1, E2, Hx', HA, HC. split.
    + apply Qle_shift_div_l; [assumption|].
      unfold Qdiv. rewrite <- Qmult_assoc, (Qmult_comm (/ _)), Qmult_assoc.
      apply Qle_shift_div_r.
      { rewrite <- HC. assumption. }
      rewrite <- !inject_Z_mult. rewrite <- Zle_Qle. lia.
    + apply Qlt_shift_div_r; [assumption|].
      unfold Qdiv. rewrite <- Qmult_assoc, (Qmult_comm (/ _)), Qmult_assoc.
      apply Qlt_shift_div_l.
      { rewrite <- HC. assumption. }
      change 2 with (inject_Z 2).
      rewrite <- !inject_Z_mult. rewrite <- Zlt_Qlt. nia.
Qed.

Lemma ilog2_unique x k : pow2 k <= x -> x < pow2 (k + 1) -> ilog2 x = k.
Proof.
  intros H1 H2.
  assert (Hx : 0 < x) by (eapply Qlt_le_trans; [apply (pow2_pos k) | exact H1]).
  destruct (ilog2_spec x Hx) as [H3 H4].
  assert (k < ilog2 x + 1)%Z by (apply pow2_lt_inv; eapply Qle_lt_trans; eassumption).
  assert (ilog2 x < k + 1)%Z by (apply pow2_lt_inv; eapply Qle_lt_trans; eassumption).
  lia.
Qed.

Lemma ilog2_mono x y : 0 < x -> x <= y -> (ilog2 x <= ilog2 y)%Z.
Proof.
  intros Hx Hxy.
  assert (Hy : 0 < y) by (eapply Qlt_le_trans; eassumption).
  destruct (ilog2_spec x Hx) as [H1 _]. destruct (ilog2_spec y Hy) as [_ H2].
  assert (ilog2 x < ilog2 y + 1)%Z.
  { apply pow2_lt_inv. eapply Qle_lt_trans; [exact H1|]. eapply Qle_lt_trans; eassumption. }
  lia.
Qed.

Lemma rne_floor_bounds q : (Qfloor q <= rne q <= Qfloor q + 1)%Z.
Proof.
  unfold rne. destruct (Qcompare _ _); [destruct (Z.even _)| |]; lia.
Qed.

Lemma rne_Z z : rne (inject_Z z) = z.
Proof.
  unfold rne. rewrite Qfloor_Z.
  assert (E : inject_Z z - inject_Z z == 0) by ring.
  assert (C : Qcompare (inject_Z z - inject_Z z) (1 # 2) = Lt).
  { rewrite <- Qlt_alt. rewrite E. reflexivity. }
  rewrite C. reflexivity.
Qed.

Lemma rne_mono p q : p <= q -> (rne p <= rne q)%Z.
Proof.
  intros H. pose proof (Qfloor_resp_le _ _ H) as Hf.
  pose proof (rne_floor_bounds p). pose proof (rne_floor_bounds q).
  destruct (Z.eq_dec (Qfloor p) (Qfloor q)) as [E | NE]; [| lia].
  unfold rne. rewrite <- E.
  destruct (Qcompare (p - inject_Z (Qfloor p)) (1 # 2)) eqn:Cp;
  destruct (Qcompare (q - inject_Z (Qfloor p)) (1 # 2)) eqn:Cq;
    try (destruct (Z.even (Qfloor p))); try lia;
    try rewrite <- Qeq_alt in *; try rewrite <- Qlt_alt in *; try rewrite <- Qgt_alt in *;
    exfalso; lra.
Qed.

Lemma rne_compat p q : p == q -> rne p = rne q.
Proof.
  intros H. apply Z.le_antisymm; apply rne_mono; rewrite H; apply Qle_refl.
Qed.

Lemma round_mag_pos_eq x :
  0 < x -> round_mag x == inject_Z (rne (x / pow2 (expo x))) * pow2 (expo x).
Proof.
  intros Hx. unfold round_mag.
  assert (Hn : (0 < Qnum x)%Z).
  { destruct x as [n d]. unfold Qlt in Hx. simpl in *. lia. }
  destruct (Z.leb_spec (Qnum x) 0); [lia|].
  rewrite Qred_correct. reflexivity.
Qed.

Lemma round_mag_nonpos x : x <= 0 -> round_mag x = 0.
Proof.
  intros Hx. unfold round_mag.
  assert (Hn : (Qnum x <= 0)%Z).
  { destruct x as [n d]. unfold Qle in Hx. simpl in *. lia. }
  destruct (Z.leb_spec (Qnum x) 0); [reflexivity | lia].
Qed.

Lemma scaled_lower x : 0 < x -> 0 < x / pow2 (expo x).
Proof.
  intros Hx. apply Qlt_shift_div_l; [apply pow2_pos | lra].
Qed.

Lemma scaled_upper x : 0 < x -> x / pow2 (expo x) < pow2 prec.
Proof.
  intros Hx. apply Qlt_shift_div_r; [apply pow2_pos|].
  rewrite <- pow2_add.
  destruct (ilog2_spec x Hx) as [_ H]. eapply Qlt_le_trans; [exact H|].
  apply pow2_le. unfold expo, prec, emin. lia.
Qed.

Lemma scaled_normal x :
  0 < x -> (emin < ilog2 x - (prec - 1))%Z -> pow2 (prec - 1) <= x / pow2 (expo x).
Proof.
  intros Hx Hn. apply Qle_shift_div_l; [apply pow2_pos|].
  rewrite <- pow2_add.
  destruct (ilog2_spec x Hx) as [H _]. eapply Qle_trans; [|exact H].
  apply pow2_le. unfold expo. lia.
Qed.

Lemma round_mag_nonneg x : 0 <= round_mag x.
Proof.
  destruct (Qlt_le_dec 0 x) as [Hx | Hx].
  - rewrite (round_mag_pos_eq x Hx).
    apply Qmult_le_0_compat; [| apply Qlt_le_weak, pow2_pos].
    change 0 with (inject_Z 0). rewrite <- Zle_Qle.
    pose proof (rne_floor_bounds (x / pow2 (expo x))).
    pose proof (Qfloor_resp_le 0 _ (Qlt_le_weak _ _ (scaled_lower x Hx))).
    change (Qfloor 0) with 0%Z in *. lia.
  - rewrite (round_mag_nonpos x Hx). apply Qle_refl.
Qed.

Lemma round_mag_mono x y : x <= y -> round_mag x <= round_mag y.
Proof.
  intros Hxy.
  destruct (Qlt_le_dec 0 x) as [Hx | Hx].
  2:{ rewrite (round_mag_nonpos x Hx). apply round_mag_nonneg. }
  assert (Hy : 0 < y) by (eapply Qlt_le_trans; eassumption).
  rewrite (round_mag_pos_eq x Hx), (round_mag_pos_eq y Hy).
  pose proof (ilog2_mono x y Hx Hxy) as Hl.
  assert (He : (expo x <= expo y)%Z) by (unfold expo; lia).
  destruct (Z.eq_dec (expo x) (expo y)) as [E | NE].
  - rewrite E. apply Qmult_le_compat_r; [| apply Qlt_le_weak, pow2_pos].
    rewrite <- Zle_Qle. apply rne_mono.
    apply Qmult_le_compat_r; [exact Hxy|].
    apply Qlt_le_weak, Qinv_lt_0_compat, pow2_pos.
  - assert (Hlt : (expo x < expo y)%Z) by lia.
    assert (Hny : (emin < ilog2 y - (prec - 1))%Z) by (unfold expo in *; lia).
    apply Qle_trans with (pow2 prec * pow2 (expo x)).
    + apply Qmult_le_compat_r; [| apply Qlt_le_weak, pow2_pos].
      rewrite (pow2_Z prec) by (unfold prec; lia).
      rewrite <- Zle_Qle. rewrite <- (rne_Z (2 ^ prec)).
      apply rne_mono. rewrite <- pow2_Z by (unfold prec; lia).
      apply Qlt_le_weak, scaled_upper, Hx.
    + apply Qle_trans with (pow2 (prec - 1) * pow2 (expo y)).
      * rewrite <- !pow2_add. apply pow2_le. lia.
      * apply Qmult_le_compat_r; [| apply Qlt_le_weak, pow2_pos].
        rewrite (pow2_Z (prec - 1)) by (unfold prec; lia).
        rewrite <- Zle_Qle. rewrite <- (rne_Z (2 ^ (prec - 1))).
        apply rne_mono. rewrite <- pow2_Z by (unfold prec; lia).
        apply scaled_normal; assumption.
Qed.

Lemma round_mag_canon x : Qred (round_mag x) = round_mag x.
Proof.
  unfold round_mag. destruct (Qnum x <=? 0)%Z; [reflexivity|].
  apply Qred_complete, Qred_correct.
Qed.

Lemma round_mag_compat x y : x == y -> round_mag x = round_mag y.
Proof.
  intros H. rewrite <- (round_mag_canon x), <- (round_mag_canon y).
  apply Qred_complete. apply Qle_antisym; apply round_mag_mono; rewrite H; apply Qle_refl.
Qed.

Lemma round_mag_exact x z :
  0 < x -> x / pow2 (expo x) == inject_Z z -> round_mag x == x.
Proof.
  intros Hx Hz. rewrite (round_mag_pos_eq x Hx).
  rewrite (rne_compat _ _ Hz), rne_Z, <- Hz. field.
  intro K. pose proof (pow2_pos (expo x)) as P. rewrite K in P. discriminate.
Qed.

Lemma pow2_opp k : pow2 (- k) == / pow2 k.
Proof. unfold pow2. apply Qpower_opp. Qed.

Lemma round_mag_small_int n :
  (0 <= n <= 2 ^ 53)%Z -> round_mag (inject_Z n) == inject_Z n.
Proof.
  intros [H0 H1].
  destruct (Z.eq_dec n 0) as [-> | Hn0]; [reflexivity|].
  destruct (Z.eq_dec n (2 ^ 53)) as [-> | Hn1]; [vm_compute; reflexivity|].
  assert (Hx : 0 < inject_Z n) by (change 0 with (inject_Z 0); rewrite <- Zlt_Qlt; lia).
  destruct (ilog2_spec _ Hx) as [Hlo Hhi].
  assert (Hl1 : (ilog2 (inject_Z n) < 53)%Z).
  { apply pow2_lt_inv. eapply Qle_lt_trans; [exact Hlo|].
    rewrite (pow2_Z 53) by lia. rewrite <- Zlt_Qlt. lia. }
  assert (Hl0 : (0 <= ilog2 (inject_Z n))%Z).
  { assert (0 < ilog2 (inject_Z n) + 1)%Z; [|lia].
    apply pow2_lt_inv. eapply Qle_lt_trans; [|exact Hhi].
    change (pow2 0) with (inject_Z 1). rewrite <- Zle_Qle. lia. }
  set (e := expo (inject_Z n)).
  assert (He : (- 52 <= e <= 0)%Z) by (unfold e, expo, prec, emin; lia).
  apply (round_mag_exact _ (n * 2 ^ (- e))); [exact Hx|].
  fold e. rewrite inject_Z_mult, <- pow2_Z by lia. rewrite pow2_opp.
  reflexivity.
Qed.

Lemma pack_compat s x y : x == y -> pack s x = pack s y.
Proof. intros H. unfold pack. rewrite (round_mag_compat x y H). reflexivity. Qed.

Lemma pack_cases s x :
  (pack s x = Inf s /\ pow2 emax <= round_mag x) \/
  (pack s x = Fin s (round_mag x) /\ round_mag x < pow2 emax).
Proof.
  unfold pack. destruct (Qle_bool (pow2 emax) (round_mag x)) eqn:E.
  - left. split; [reflexivity|]. apply Qle_bool_iff. exact E.
  - right. split; [reflexivity|]. apply Qnot_le_lt. intro K.
    apply Qle_bool_iff in K. congruence.
Qed.

Lemma pack_mono x y : x <= y -> le_nonneg (pack false x) (pack false y).
Proof.
  intros H. pose proof (round_mag_mono x y H) as Hr.
  pose proof (round_mag_nonneg x) as H0.
  destruct (pack_cases false x) as [[-> Hx] | [-> Hx]];
  destruct (pack_cases false y) as [[-> Hy] | [-> Hy]]; simpl; auto.
  lra.
Qed.

Lemma of_int_nonneg n : (0 <= n)%Z -> of_int n = pack false (inject_Z n).
Proof.
  intros H. unfold of_int. rewrite Z.abs_eq by exact H.
  destruct (Z.ltb_spec n 0); [lia | reflexivity].
Qed.

Lemma of_int_mono a b : (0 <= a <= b)%Z -> le_nonneg (of_int a) (of_int b).
Proof.
  intros [Ha Hab]. rewrite !of_int_nonneg by lia.
  apply pack_mono. rewrite <- Zle_Qle. exact Hab.
Qed.

Lemma is_zero_false m : 0 < m -> is_zero m = false.
Proof.
  intros H. unfold is_zero. destruct m as [n d]. unfold Qlt in H. simpl in *.
  apply Z.eqb_neq. lia.
Qed.

Lemma is_zero_true m : is_zero m = true -> m == 0.
Proof.
  unfold is_zero. destruct m as [n d]. simpl. intros H.
  apply Z.eqb_eq in H. subst n. reflexivity.
Qed.

Lemma not_zero_pos m : 0 <= m -> is_zero m = false -> 0 < m.
Proof.
  intros H0 H. destruct m as [n d]. unfold is_zero, Qle, Qlt in *. simpl in *.
  apply Z.eqb_neq in H. lia.
Qed.

(** Non-negative values are those related to themselves. *)
Lemma le_nonneg_shape x y :
  le_nonneg x y ->
  x = Inf false \/ exists m, x = Fin false m /\ 0 <= m.
Proof.
  destruct x as [| [] | [] m]; destruct y as [| [] | [] m']; simpl; intros H;
    try contradiction; eauto.
  right. exists m. split; [reflexivity | apply H].
Qed.

Lemma div_mono x x' my :
  0 < my -> le_nonneg x x' ->
  le_nonneg (div x (Fin false my)) (div x' (Fin false my)).
Proof.
  intros Hy H.
  destruct x as [| [] | [] mx]; destruct x' as [| [] | [] mx']; simpl in H;
    try contradiction; simpl; rewrite ?(is_zero_false my Hy); simpl; auto.
  - destruct (pack_cases false (mx / my)) as [[-> _] | [-> _]]; simpl; auto.
    apply round_mag_nonneg.
  - apply pack_mono. apply Qmult_le_compat_r; [apply H|].
    apply Qlt_le_weak, Qinv_lt_0_compat, Hy.
Qed.

Lemma mul_mono x x' mh :
  0 < mh -> le_nonneg x x' ->
  le_nonneg (mul x (Fin false mh)) (mul x' (Fin false mh)).
Proof.
  intros Hh H.
  destruct x as [| [] | [] mx]; destruct x' as [| [] | [] mx']; simpl in H;
    try contradiction; simpl; rewrite ?(is_zero_false mh Hh); simpl; auto.
  - destruct (pack_cases false (mx * mh)) as [[-> _] | [-> _]]; simpl; auto.
    apply round_mag_nonneg.
  - apply pack_mono. apply Qmult_le_compat_r; [apply H|].
    apply Qlt_le_weak, Hh.
Qed.

Lemma gtb_mono x x' z : le_nonneg x x' -> gtb x z = true -> gtb x' z = true.
Proof.
  intros H.
  destruct x as [| [] | [] mx]; destruct x' as [| [] | [] mx']; simpl in H;
    try contradiction; destruct z as [| sz | sz mz]; cbn [gtb val negb andb]; auto.
  destruct (Qcompare (val sz mz) mx) eqn:C; try discriminate. intros _.
  rewrite <- Qlt_alt in C. destruct H as [_ H].
  destruct (Qcompare (val sz mz) mx') eqn:C'; [| reflexivity |].
  - rewrite <- Qeq_alt in C'. lra.
  - rewrite <- Qgt_alt in C'. lra.
Qed.

Lemma of_int_small n :
  (0 <= n <= 2 ^ 53)%Z ->
  exists m, of_int n = Fin false m /\ m == inject_Z n.
Proof.
  intros H. rewrite of_int_nonneg by lia.
  pose proof (round_mag_small_int n H) as E.
  destruct (pack_cases false (inject_Z n)) as [[_ Hov] | [-> _]].
  - exfalso. rewrite E in Hov.
    assert (K : inject_Z n <= inject_Z (2 ^ 53)) by (rewrite <- Zle_Qle; lia).
    assert (K' : inject_Z (2 ^ 53) < pow2 emax) by reflexivity.
    lra.
  - eexists; split; [reflexivity | exact E].
Qed.

Lemma div_small b l :
  (0 <= b <= 2 ^ 53)%Z -> (0 < l <= 2 ^ 53)%Z ->
  div (of_int b) (of_int l) = pack false (inject_Z b / inject_Z l).
Proof.
  intros Hb Hl.
  destruct (of_int_small b Hb) as (mb & -> & Eb).
  destruct (of_int_small l ltac:(lia)) as (ml & -> & El).
  assert (Hml : 0 < ml).
  { rewrite El. change 0 with (inject_Z 0). rewrite <- Zlt_Qlt. lia. }
  simpl. rewrite (is_zero_false ml Hml).
  apply pack_compat. rewrite Eb, El. reflexivity.
Qed.

End F64Facts.

(** * The readiness gate and the percentage *)

Section Readiness.
Import F64 F64Facts.
Local Open Scope Q_scope.

Lemma ReadyForPlayback_ready_of c :
  ReadyForPlayback c =
  ready_of (of_int (Torrent_BytesCompleted (Torrent c)))
           (of_int (Torrent_Length (Torrent c))).
Proof. reflexivity. Qed.

Lemma of_int_100 : of_int 100 = Fin false 100.
Proof. vm_compute. reflexivity. Qed.

Lemma ready_of_mono x x' q :
  le_nonneg x x' ->
  ready_of x (pack false q) = true -> ready_of x' (pack false q) = true.
Proof.
  intros H. unfold ready_of. rewrite of_int_100.
  destruct (pack_cases false q) as [[-> _] | [-> _]].
  - (* an infinite length *)
    destruct x as [| [] | [] mx]; destruct x' as [| [] | [] mx']; simpl in H;
      try contradiction; cbn [div xorb]; try discriminate.
    all: rewrite (pack_compat false (0 * 100) 0) by ring;
      vm_compute; discriminate.
  - pose proof (round_mag_nonneg q) as Hq.
    destruct (is_zero (round_mag q)) eqn:Z.
    + (* a zero length *)
      destruct x as [| [] | [] mx]; destruct x' as [| [] | [] mx']; simpl in H;
        try contradiction; cbn [div xorb]; rewrite ?Z; auto.
      destruct (is_zero mx) eqn:Zx; [discriminate|].
      destruct H as [H0 H1]. intros R.
      rewrite (is_zero_false mx'); [exact R|].
      pose proof (not_zero_pos mx H0 Zx). lra.
    + pose proof (not_zero_pos _ Hq Z) as Hpos.
      apply gtb_mono. apply mul_mono; [reflexivity|].
      apply div_mono; assumption.
Qed.

Lemma fraction_at_most b l :
  (0 < l)%Z -> (20 * b <= l)%Z -> inject_Z b / inject_Z l <= 1 # 20.
Proof.
  intros Hl H. apply Qle_shift_div_r.
  - change 0 with (inject_Z 0). rewrite <- Zlt_Qlt. exact Hl.
  - unfold Qle. simpl. lia.
Qed.

Lemma fraction_above b l :
  (0 < l <= 2 ^ 52)%Z -> (l < 20 * b)%Z ->
  (2 ^ 52 + 1) # (20 * 2 ^ 52) <= inject_Z b / inject_Z l.
Proof.
  intros Hl H. apply Qle_shift_div_l.
  - change 0 with (inject_Z 0). rewrite <- Zlt_Qlt. lia.
  - unfold Qle. simpl. lia.
Qed.

Lemma ready_small b l :
  (0 <= b <= 2 ^ 53)%Z -> (0 < l <= 2 ^ 52)%Z ->
  ready_of (of_int b) (of_int l) = true <-> (l < 20 * b)%Z.
Proof.
  intros Hb Hl. unfold ready_of.
  rewrite div_small by lia. rewrite of_int_100.
  destruct (Z_lt_le_dec l (20 * b)) as [Hlt | Hge].
  - split; [intros _; exact Hlt | intros _].
    apply (gtb_mono (mul (pack false ((2 ^ 52 + 1) # (20 * 2 ^ 52))) (Fin false 100))).
    + apply mul_mono; [reflexivity|]. apply pack_mono.
      apply fraction_above; [lia | exact Hlt].
    + vm_compute. reflexivity.
  - split; [intros R | lia]. exfalso.
    assert (K : gtb (mul (pack false (1 # 20)) (Fin false 100)) (of_int 5) = true).
    { revert R. apply gtb_mono. apply mul_mono; [reflexivity|]. apply pack_mono.
      apply fraction_at_most; lia. }
    vm_compute in K. discriminate.
Qed.

End Readiness.

(** C1 (as amended). For a session of at most 2^52 bytes with at most 2^53
    bytes completed, [ReadyForPlayback] is true exactly when the completed
    fraction is strictly above 0.05: the comparison of the source is
    [percentage() > 5], so the gate is still false at exactly 5%. *)
Theorem ReadyForPlayback_strict_threshold (c : Client) :
  (0 <= Torrent_BytesCompleted (Torrent c) <= 2 ^ 53)%Z ->
  (0 < Torrent_Length (Torrent c) <= 2 ^ 52)%Z ->
  ReadyForPlayback c = true <-> (5 # 100 < completed_fraction c)%Q.
Proof.
  intros Hb Hl. rewrite ReadyForPlayback_ready_of, ready_small by assumption.
  unfold completed_fraction.
  set (b := Torrent_BytesCompleted (Torrent c)) in *.
  set (l := Torrent_Length (Torrent c)) in *.
  assert (HlQ : (0 < inject_Z l)%Q).
  { change 0%Q with (inject_Z 0). rewrite <- Zlt_Qlt. lia. }
  split.
  - intros H. apply Qlt_shift_div_l; [exact HlQ|].
    unfold Qlt. simpl. lia.
  - intros H. destruct (Z_lt_le_dec l (20 * b)) as [K | K]; [exact K | exfalso].
    pose proof (fraction_at_most b l ltac:(lia) K) as A.
    apply (Qlt_irrefl (5 # 100)). eapply Qlt_le_trans; [exact H|].
    eapply Qle_trans; [exact A|]. unfold Qle. simpl. lia.
Qed.

Lemma ReadyForPlayback_strict_threshold_witness :
  ReadyForPlayback (session 6 100) = true <-> (5 # 100 < completed_fraction (session 6 100))%Q.
Proof.
  apply (ReadyForPlayback_strict_threshold (session 6 100)); simpl; lia.
Defined.

(** C1, as the specification states it, fails at exactly 5%: with 5 bytes
    of 100 completed the fraction is 0.05 and the gate is false. *)
Lemma ReadyForPlayback_at_5_percent :
  ~ (ReadyForPlayback (session 5 100) = true
     <-> (5 # 100 <= completed_fraction (session 5 100))%Q).
Proof.
  intros [_ H].
  assert (R : ReadyForPlayback (session 5 100) = true).
  { apply H. unfold completed_fraction, Qle. simpl. lia. }
  vm_compute in R. discriminate.
Qed.

Lemma ReadyForPlayback_later (c c' : Client) :
  Torrent_Length (Torrent c') = Torrent_Length (Torrent c) ->
  (0 <= Torrent_Length (Torrent c))%Z ->
  (0 <= Torrent_BytesCompleted (Torrent c) <= Torrent_BytesCompleted (Torrent c'))%Z ->
  ReadyForPlayback c = true -> ReadyForPlayback c' = true.
Proof.
  intros El Hl Hb. rewrite !ReadyForPlayback_ready_of, El.
  rewrite (F64Facts.of_int_nonneg (Torrent_Length (Torrent c))) by exact Hl.
  apply ready_of_mono. apply F64Facts.of_int_mono. exact Hb.
Qed.

(** C7. Along the calls of one session (the same total length, a number of
    completed bytes that never decreases), once [ReadyForPlayback] has
    returned true it returns true at every later call. *)
Theorem ReadyForPlayback_never_reverts (calls : nat -> Client) :
  (forall n, Torrent_Length (Torrent (calls n)) = Torrent_Length (Torrent (calls 0%nat))) ->
  (0 <= Torrent_Length (Torrent (calls 0%nat)))%Z ->
  (forall n, 0 <= Torrent_BytesCompleted (Torrent (calls n))
             <= Torrent_BytesCompleted (Torrent (calls (S n))))%Z ->
  forall i j : nat, (i <= j)%nat ->
    ReadyForPlayback (calls i) = true -> ReadyForPlayback (calls j) = true.
Proof.
  intros Hlen Hl Hmono i j Hij Hi.
  induction Hij as [| j Hij IH]; [exact Hi|].
  apply (ReadyForPlayback_later (calls j)); [| | | exact IH].
  - rewrite (Hlen (S j)), (Hlen j). reflexivity.
  - rewrite (Hlen j). exact Hl.
  - apply Hmono.
Qed.

Lemma ReadyForPlayback_never_reverts_witness :
  ReadyForPlayback (session 6 100) = true /\ ReadyForPlayback (session 9 100) = true.
Proof.
  split; [reflexivity|].
  apply (ReadyForPlayback_never_reverts (fun n => session (6 + Z.of_nat n) 100)
           ltac:(reflexivity) ltac:(simpl; lia) ltac:(intros n; simpl; lia)
           0%nat 3%nat ltac:(lia)).
  reflexivity.
Defined.

(** C4 (as amended). For a session whose total length is zero and that has
    completed nothing, [percentage] divides zero by zero and is not a
    number; the gate is then false and [Render] prints no progress line,
    because it prints the percentage only when some byte is completed. With
    bytes completed, the quotient by the zero length is plus infinity. *)
Theorem percentage_of_zero_length (humanize_Bytes : Z -> string) (c : Client) :
  Torrent_Length (Torrent c) = 0%Z ->
  (0 <= Torrent_BytesCompleted (Torrent c))%Z ->
  (Torrent_BytesCompleted (Torrent c) = 0%Z ->
     percentage c = F64.NaN /\ ReadyForPlayback c = false
     /\ forall complete size percent,
          ~ In (PrintProgress complete size percent) (snd (Render humanize_Bytes c)))
  /\ ((0 < Torrent_BytesCompleted (Torrent c))%Z -> percentage c = F64.Inf false).
Proof.
  intros Hl Hb. split.
  - intros H0.
    assert (P : percentage c = F64.NaN).
    { unfold percentage. rewrite Hl, H0. vm_compute. reflexivity. }
    split; [exact P | split].
    + unfold ReadyForPlayback. rewrite P. reflexivity.
    + intros complete size percent. unfold Render.
      cbn [Torrent set_Progress Port snd]. rewrite Hl, H0.
      change ((0 >? 0)%Z) with false. change ((0 <? 0)%Z) with false.
      destruct (ReadyForPlayback _); simpl; intros K;
        repeat (destruct K as [K | K]; [discriminate K|]); exact K.
  - intros Hpos. unfold percentage. rewrite Hl.
    rewrite (F64Facts.of_int_nonneg _ Hb).
    assert (P : (0 < F64.round_mag (inject_Z (Torrent_BytesCompleted (Torrent c))))%Q).
    { eapply Qlt_le_trans; [| apply (F64Facts.round_mag_mono (inject_Z 1))].
      - vm_compute. reflexivity.
      - rewrite <- Zle_Qle. lia. }
    destruct (F64Facts.pack_cases false (inject_Z (Torrent_BytesCompleted (Torrent c))))
      as [[-> _] | [-> _]].
    + vm_compute. reflexivity.
    + change (F64.of_int 0) with (F64.Fin false 0).
      cbn [F64.div xorb]. change (F64.is_zero 0) with true. cbv iota.
      rewrite (F64Facts.is_zero_false _ P). vm_compute. reflexivity.
Qed.

Lemma percentage_of_zero_length_witness :
  percentage (session 0 0) = F64.NaN /\ ReadyForPlayback (session 0 0) = false.
Proof.
  destruct (percentage_of_zero_length (fun _ => "0 B") (session 0 0)
              ltac:(reflexivity) ltac:(simpl; lia)) as [H _].
  destruct (H ltac:(reflexivity)) as (P & R & _). exact (conj P R).
Defined.

(** C4, as the specification states it, fails: for a total length of zero
    the percentage is not 0 but not a number. *)
Lemma percentage_of_zero_length_is_not_zero :
  percentage (session 0 0) = F64.NaN /\ percentage (session 0 0) <> F64.of_int 0.
Proof.
  split; [vm_compute; reflexivity | vm_compute; discriminate].
Qed.

(** The arithmetic of [F64] and the processor's binary64 give the same
    percentage and the same gate: on the sessions used in this file, on every
    pair of byte counts below 48, and on large counts, where the conversion
    to binary64 rounds. *)
Lemma binary64_agrees_on_samples :
  forallb (fun s : Z * Z => agrees s.1 s.2)
    [(5, 100); (6, 100); (9, 100); (0, 0); (1, 0); (1, 3); (50, 1000);
     (51, 1000); (100, 1000); (225179981368525, 4503599627370496);
     (1, 900719925474099)]%Z = true.
Proof. vm_compute. reflexivity. Qed.

Lemma binary64_agrees_on_small_counts :
  forallb (fun b => forallb (agrees b) (seqZ 0 48)) (seqZ 0 48) = true.
Proof. vm_compute. reflexivity. Qed.

Lemma binary64_agrees_on_large_counts :
  forallb (fun b => forallb (agrees b) Hw.large_counts) Hw.large_counts = true.
Proof. vm_compute. reflexivity. Qed.

(** * Teardown *)



(** * The progress reporter *)

Lemma uint64_int64_sub_small (a b : Z) :
  (0 <= b <= a)%Z -> (a < 2 ^ 63)%Z -> uint64 (int64_sub a b) = (a - b)%Z.
Proof.
  intros H1 H2. unfold uint64, int64_sub, int64_wrap.
  rewrite (Z.mod_small (a - b + 2 ^ 63)) by lia.
  rewrite Z.mod_small by lia. lia.
Qed.

(** C8 (as amended). Between two samples with the stored one not above the
    current one, [Render] reports the difference of the two samples itself,
    labelled per second, which is the difference divided by the interval
    when the interval is one second; [Render] is not given the interval and
    divides by nothing. Afterwards the stored sample is the current one. *)
Theorem Render_reports_the_difference (humanize_Bytes : Z -> string) (c : Client) :
  (0 <= Progress c <= Torrent_BytesCompleted (Torrent c))%Z ->
  (Torrent_BytesCompleted (Torrent c) < 2 ^ 63)%Z ->
  let current := Torrent_BytesCompleted (Torrent c) in
  Progress (fst (Render humanize_Bytes c)) = current
  /\ speed_bytes c = (current - Progress c)%Z
  /\ (inject_Z (speed_bytes c) == spec_throughput (Progress c) current 1)%Q
  /\ (forall speed, In (PrintSpeed speed) (snd (Render humanize_Bytes c)) ->
        speed = humanize_Bytes (current - Progress c)%Z +:+ "/s")
  /\ ((current < Torrent_Length (Torrent c))%Z ->
        In (PrintSpeed (humanize_Bytes (current - Progress c)%Z +:+ "/s"))
           (snd (Render humanize_Bytes c))).
Proof.
  intros H1 H2 current.
  assert (E : speed_bytes c = (current - Progress c)%Z).
  { unfold speed_bytes. apply uint64_int64_sub_small; assumption. }
  split; [reflexivity|]. split; [exact E|]. split.
  { rewrite E. unfold spec_throughput, Qdiv. change (/ inject_Z 1)%Q with 1%Q.
    rewrite Qmult_1_r. reflexivity. }
  unfold Render. cbn [snd Torrent set_Progress Port]. rewrite E. fold current.
  split.
  - intros speed K. rewrite !in_app_iff in K.
    destruct K as [K | [K | [K | [K | K]]]].
    + cbn in K. destruct K as [K | [K | [K | []]]]; discriminate K.
    + destruct (ReadyForPlayback _); cbn in K; [destruct K as [K | []]|]; [discriminate K | contradiction].
    + destruct (current >? 0)%Z; cbn in K; [destruct K as [K | []]|]; [discriminate K | contradiction].
    + destruct (current <? Torrent_Length (Torrent c))%Z; cbn in K; [|contradiction].
      destruct K as [K | []]. injection K as <-. reflexivity.
    + cbn in K. destruct K as [K | []]. discriminate K.
  - intros L. apply Z.ltb_lt in L. rewrite L.
    rewrite !in_app_iff. right. right. right. left. left. reflexivity.
Qed.

Lemma Render_reports_the_difference_witness :
  Progress (fst (Render (fun _ => "100 B") (session 100 1000))) = 100%Z
  /\ speed_bytes (session 100 1000) = 100%Z.
Proof.
  destruct (Render_reports_the_difference (fun _ => "100 B") (session 100 1000)
              ltac:(simpl; lia) ltac:(simpl; lia)) as (H1 & H2 & _).
  exact (conj H1 H2).
Defined.

(** C8, as the specification states it, fails for an interval other than one
    second: with samples 0 and 100 taken 2 seconds apart, [Render] reports
    100 bytes per second, not 50. *)
Lemma Render_does_not_divide_by_the_interval :
  In (PrintSpeed "100 B/s")
     (snd (Render (fun n => if (n =? 100)%Z then "100 B" else "?") (session 100 1000)))
  /\ ~ (inject_Z (speed_bytes (session 100 1000))
        == spec_throughput (Progress (session 100 1000)) 100 2)%Q.
Proof.
  split.
  - vm_compute. tauto.
  - vm_compute. discriminate.
Qed.

(** * The file that is served *)

Lemma getLargestFile_loop_spec (files : list torrent_File) :
  forall (target : torrent_File) (maxSize : Z),
  let found := getLargestFile_loop files target maxSize in
  (found = target /\ forall f, In f files -> (File_Length f <= maxSize)%Z)
  \/ (exists before after,
        files = before ++ found :: after
        /\ (maxSize < File_Length found)%Z
        /\ (forall f, In f before -> (File_Length f < File_Length found)%Z)
        /\ (forall f, In f after -> (File_Length f <= File_Length found)%Z)).
Proof.
  induction files as [| file files IH]; intros target maxSize; cbn.
  - left. split; [reflexivity | intros f []].
  - destruct (Z.ltb_spec maxSize (File_Length file)) as [Hlt | Hge].
    + destruct (IH file (File_Length file)) as [[E A] | (before & after & E & M & B & A)].
      * right. exists [], files. rewrite E. repeat split; auto.
        intros f [].
      * right. exists (file :: before), after. rewrite E at 1.
        repeat split; auto; [lia|].
        intros f [<- | K]; [exact M | auto].
    + destruct (IH target maxSize) as [[E A] | (before & after & E & M & B & A)].
      * left. split; [exact E|]. intros f [<- | K]; [exact Hge | auto].
      * right. exists (file :: before), after. rewrite E at 1.
        repeat split; auto.
        intros f [<- | K]; [lia | auto].
Qed.

(** C9. [getLargestFile] returns the first file of maximal length when some
    file has a positive length: every file before it is strictly shorter and
    no file after it is longer, so ties keep the earlier file. Otherwise, and
    so when the session has no files, it returns the zero-value file, of
    length 0, and no error; [GetFile] goes on with whatever it returns, the
    zero value included, handing it to [NewFileReader] and serving it. *)
Theorem getLargestFile_first_of_maximal_length
  {Request FileEntry : Type}
  (NewFileReader : Client -> torrent_File -> Result FileEntry)
  (c : Client) (r : Request) :
  let files := Torrent_Files (Torrent c) in
  let target := getLargestFile c in
  ((target = File_zero /\ File_Length target = 0%Z
    /\ forall f, In f files -> (File_Length f <= 0)%Z)
   \/ (exists before after,
         files = before ++ target :: after
         /\ (0 < File_Length target)%Z
         /\ (forall f, In f before -> (File_Length f < File_Length target)%Z)
         /\ (forall f, In f after -> (File_Length f <= File_Length target)%Z)))
  /\ (files = [] -> target = File_zero)
  /\ GetFile NewFileReader c r
     = match NewFileReader c target with
       | Err e => http_Error e 500
       | Ok entry =>
           http_ServeContent
             ("attachment; filename=" +:+ quote +:+ Torrent_Name (Torrent c) +:+ quote)
             r (File_DisplayPath target) target entry
       end.
Proof.
  intros files target. split; [| split].
  - unfold target, getLargestFile. fold files.
    destruct (getLargestFile_loop_spec files File_zero 0) as [[E A] | H].
    + left. rewrite E. auto.
    + right. exact H.
  - unfold target, getLargestFile. fold files. intros ->. reflexivity.
  - reflexivity.
Qed.

(** C3 (as amended). When some file of the session has a positive length,
    the file [GetFile] serves is a file of the session, no file of the
    session is longer, and it is the same for every request. *)
Theorem GetFile_serves_a_largest_file
  {Request FileEntry : Type}
  (NewFileReader : Client -> torrent_File -> Result FileEntry)
  (c : Client) (r : Request) :
  (exists f, In f (Torrent_Files (Torrent c)) /\ (0 < File_Length f)%Z) ->
  In (getLargestFile c) (Torrent_Files (Torrent c))
  /\ (forall f, In f (Torrent_Files (Torrent c)) ->
        (File_Length f <= File_Length (getLargestFile c))%Z)
  /\ (forall served, served_target (GetFile NewFileReader c r) = Some served ->
        served = getLargestFile c)
  /\ (forall r' : Request, served_target (GetFile NewFileReader c r')
                 = served_target (GetFile NewFileReader c r)).
Proof.
  intros (f0 & Hin & Hpos).
  assert (S : forall r0 : Request, served_target (GetFile NewFileReader c r0)
                         = match NewFileReader c (getLargestFile c) with
                           | Err _ => None
                           | Ok _ => Some (getLargestFile c)
                           end).
  { intros r0. unfold GetFile. destruct (NewFileReader c (getLargestFile c)); reflexivity. }
  unfold getLargestFile in *.
  destruct (getLargestFile_loop_spec (Torrent_Files (Torrent c)) File_zero 0)
    as [[E A] | (before & after & E & M & B & A)].
  - specialize (A f0 Hin). lia.
  - set (target := getLargestFile_loop (Torrent_Files (Torrent c)) File_zero 0) in *.
    split; [| split; [| split]].
    + rewrite E. apply in_app_iff. right. left. reflexivity.
    + intros f K. rewrite E in K. apply in_app_iff in K.
      destruct K as [K | [<- | K]]; [specialize (B f K); lia | lia | auto].
    + intros served. rewrite S. destruct (NewFileReader c target); [|discriminate].
      intros K. injection K as <-. reflexivity.
    + intros r'. rewrite !S. reflexivity.
Qed.

Lemma GetFile_serves_a_largest_file_witness :
  In (getLargestFile session_with_files) sample_files
  /\ getLargestFile session_with_files
     = {| File_DisplayPath := "b.mkv"; File_Offset := 10; File_Length := 700 |}.
Proof.
  split.
  - apply (GetFile_serves_a_largest_file (fun _ f => Ok f) session_with_files tt).
    exists {| File_DisplayPath := "b.mkv"; File_Offset := 10; File_Length := 700 |}.
    split; [simpl; tauto | simpl; lia].
  - reflexivity.
Defined.

(** C3, as the specification states it, fails for a session that lists no
    file yet: what [GetFile] serves is the zero-value file, which is no file
    of the session. *)
Lemma GetFile_without_files :
  served_target (GetFile (fun _ f => Ok f) session_without_files tt) = Some File_zero
  /\ ~ In File_zero (Torrent_Files (Torrent session_without_files)).
Proof.
  split; [reflexivity | intros []].
Qed.

(** * The initial readahead *)

Lemma readahead_loop_lookup (fuel : nat) :
  forall (i : nat) (ps : list piece) (j : nat),
  (length ps / 100 * 5 - i <= fuel)%nat ->
  readahead_loop fuel i ps !! j
  = if decide (i <= j < length ps / 100 * 5)%nat
    then with_Readahead <$> ps !! j else ps !! j.
Proof.
  induction fuel as [| fuel IH]; intros i ps j Hfuel; cbn [readahead_loop].
  - destruct (decide _) as [K | K]; [lia | reflexivity].
  - destruct (Nat.ltb_spec i (length ps / 100 * 5)) as [Hlt | Hge].
    + rewrite IH; unfold prioritize; rewrite length_alter; [| lia].
      destruct (decide (i = j)) as [<- | Hne].
      * rewrite list_lookup_alter_eq.
        destruct (decide (S i <= i < _)%nat) as [K | K]; [lia|].
        destruct (decide (i <= i < _)%nat) as [K' | K']; [reflexivity | lia].
      * rewrite list_lookup_alter_ne by exact Hne.
        destruct (decide (S i <= j < _)%nat) as [K | K];
          destruct (decide (i <= j < _)%nat) as [K' | K']; try reflexivity; lia.
    + destruct (decide _) as [K | K]; [lia | reflexivity].
Qed.


(** [NewClient], stage by stage. *)
Lemma NewClient_stages (env : Env) (torrentPath : string) (port : Z) (seed : bool)
  (w : World) :
  fst (NewClient env torrentPath port seed w) =
  match torrent_NewClient_fault env (engine_config env seed) with
  | Some e => failed (client0 port) "creating torrent client" e
  | None =>
      if String.prefix "magnet:" torrentPath then
        match AddMagnet_outcome env torrentPath with
        | Err e =>
            failed (set_Client (Session_add (CallAddMagnet torrentPath) false
                                  (session0 env seed)) (client0 port))
              "adding torrent" e
        | Ok t =>
            started (set_Torrent t
                       (set_Client (Session_add (CallAddMagnet torrentPath) true
                                      (session0 env seed)) (client0 port)))
        end
      else
        match fetch env torrentPath w with
        | ((_, Some e), _) =>
            failed (set_Client (session0 env seed) (client0 port))
              "downloading torrent file" e
        | ((path, None), w') =>
            match fs w' !! path with
            | None =>
                failed (set_Client (session0 env seed) (client0 port))
                  "file not found" ("stat " +:+ path +:+ ": no such file or directory")
            | Some data =>
                match AddTorrentFromFile_outcome env path data with
                | Err e =>
                    failed (set_Client (Session_add (CallAddTorrentFromFile path) false
                                          (session0 env seed)) (client0 port))
                      "adding torrent to the client" e
                | Ok t =>
                    started (set_Torrent t
                               (set_Client (Session_add (CallAddTorrentFromFile path) true
                                              (session0 env seed)) (client0 port)))
                end
            end
        end
  end.
Proof.
  unfold NewClient, torrent_NewClient. fold (engine_config env seed).
  fold (client0 port).
  destruct (torrent_NewClient_fault env (engine_config env seed)); [reflexivity|].
  fold (session0 env seed).
  destruct (String.prefix "magnet:" torrentPath).
  - unfold Client_AddMagnet. destruct (AddMagnet_outcome env torrentPath); reflexivity.
  - unfold bind at 1.
    change (if isHTTP torrentPath then downloadFile env torrentPath
            else ret (torrentPath, None))
      with (fetch env torrentPath).
    destruct (fetch env torrentPath w) as [[path [e |]] w']; [reflexivity|].
    unfold os_Stat, Client_AddTorrentFromFile, bind, read_file, ret.
    destruct (fs w' !! path) as [data |] eqn:E; [| reflexivity].
    cbn beta iota. rewrite E.
    destruct (AddTorrentFromFile_outcome env path data); reflexivity.
Qed.





(** * Construction *)


(** * The download of a remote torrent file *)

Lemma downloadFile_stages (env : Env) (URL : string) (w : World) (file : string) :
  ioutil_TempFile_outcome env (os_TempDir env) "torrent-imageviewer" = Ok file ->
  fst (downloadFile env URL w)
  = match http_Get env URL with
    | Err e => (EmptyString, Some e)
    | Ok response =>
        (file, match io_Copy_fault env file with
               | None => None
               | Some (_, e) => Some e
               end)
    end
  /\ fs (snd (downloadFile env URL w)) !! file
     = match http_Get env URL with
       | Err e => Some []
       | Ok response =>
           match io_Copy_fault env file with
           | None => Some (Body response)
           | Some (n, _) => Some (take n (Body response))
           end
       end.
Proof.
  intros HT. unfold downloadFile, ioutil_TempFile, bind. rewrite HT.
  unfold write_file, ret, deferred_file_Close, deferred_Body_Close, io_Copy,
    log_Printf, read_file, bind, write_file, ret.
  destruct (http_Get env URL) as [response | e].
  - cbn [fs]. rewrite lookup_insert_eq. cbn [default app].
    destruct (io_Copy_fault env file) as [[n e] |];
      destruct (Body_Close_fault env); destruct (File_Close_fault env file);
      cbn; rewrite lookup_insert_eq; split; reflexivity.
  - destruct (File_Close_fault env file); cbn; rewrite lookup_insert_eq;
      split; reflexivity.
Qed.



(** * Further properties of the code *)

Section Percentage.
Import F64 F64Facts.
Local Open Scope Q_scope.

Lemma of_int_int64_positive (l : Z) :
  (0 < l < 2 ^ 63)%Z -> exists m, of_int l = Fin false m /\ 0 < m.
Proof.
  intros Hl. rewrite of_int_nonneg by lia.
  assert (P : 0 < round_mag (inject_Z l)).
  { eapply Qlt_le_trans; [| apply (round_mag_mono (inject_Z 1))].
    - vm_compute. reflexivity.
    - rewrite <- Zle_Qle. lia. }
  destruct (pack_cases false (inject_Z l)) as [[_ Hov] | [-> _]].
  - exfalso.
    assert (U : round_mag (inject_Z l) <= round_mag (inject_Z (2 ^ 63))).
    { apply round_mag_mono. rewrite <- Zle_Qle. lia. }
    assert (V : round_mag (inject_Z (2 ^ 63)) < pow2 emax) by (vm_compute; reflexivity).
    lra.
  - eexists. split; [reflexivity | exact P].
Qed.

Lemma percentage_full (l : Z) :
  (0 < l < 2 ^ 63)%Z ->
  mul (div (of_int l) (of_int l)) (of_int 100) = Fin false 100.
Proof.
  intros Hl. destruct (of_int_int64_positive l Hl) as (m & -> & Hm).
  cbn [div xorb]. rewrite (is_zero_false m Hm).
  rewrite (pack_compat false (m / m) 1).
  - vm_compute. reflexivity.
  - field. lra.
Qed.

Lemma percentage_mono (b b' l : Z) :
  (0 < l < 2 ^ 63)%Z -> (0 <= b <= b')%Z ->
  le_nonneg (mul (div (of_int b) (of_int l)) (of_int 100))
            (mul (div (of_int b') (of_int l)) (of_int 100)).
Proof.
  intros Hl Hb. destruct (of_int_int64_positive l Hl) as (m & -> & Hm).
  rewrite of_int_100. apply mul_mono; [reflexivity|].
  apply div_mono; [exact Hm|]. apply of_int_mono. exact Hb.
Qed.

End Percentage.

(** X1. A session that has completed all of its bytes shows exactly 100
    percent and is ready for playback, whatever its length. *)
Theorem percentage_of_complete_download (c : Client) :
  (0 < Torrent_Length (Torrent c) < 2 ^ 63)%Z ->
  Torrent_BytesCompleted (Torrent c) = Torrent_Length (Torrent c) ->
  percentage c = F64.Fin false 100 /\ ReadyForPlayback c = true.
Proof.
  intros Hl Hb.
  assert (P : percentage c = F64.Fin false 100).
  { unfold percentage. rewrite Hb. apply percentage_full. exact Hl. }
  split; [exact P|]. unfold ReadyForPlayback. rewrite P. vm_compute. reflexivity.
Qed.

Lemma percentage_of_complete_download_witness :
  percentage (session 700 700) = F64.Fin false 100
  /\ ReadyForPlayback (session 700 700) = true.
Proof.
  apply (percentage_of_complete_download (session 700 700)); [simpl; lia | reflexivity].
Defined.

(** X2. While the completed bytes stay within the length, the percentage is
    a finite number between 0 and 100, and it does not decrease when the
    completed bytes grow. *)
Theorem percentage_grows_within_0_and_100 (c c' : Client) :
  Torrent_Length (Torrent c') = Torrent_Length (Torrent c) ->
  (0 < Torrent_Length (Torrent c) < 2 ^ 63)%Z ->
  (0 <= Torrent_BytesCompleted (Torrent c) <= Torrent_BytesCompleted (Torrent c'))%Z ->
  (Torrent_BytesCompleted (Torrent c') <= Torrent_Length (Torrent c))%Z ->
  exists p p' : Q,
    percentage c = F64.Fin false p /\ percentage c' = F64.Fin false p'
    /\ (0 <= p)%Q /\ (p <= p')%Q /\ (p' <= 100)%Q.
Proof.
  intros El Hl Hb Hb'. unfold percentage. rewrite El.
  set (b := Torrent_BytesCompleted (Torrent c)) in *.
  set (b' := Torrent_BytesCompleted (Torrent c')) in *.
  set (l := Torrent_Length (Torrent c)) in *.
  pose proof (percentage_mono b b' l Hl Hb) as M1.
  pose proof (percentage_mono b' l l Hl ltac:(lia)) as M2.
  rewrite (percentage_full l Hl) in M2.
  destruct (F64.mul (F64.div (F64.of_int b') (F64.of_int l)) (F64.of_int 100))
    as [| [] | [] p']; try contradiction M2.
  destruct (F64.mul (F64.div (F64.of_int b) (F64.of_int l)) (F64.of_int 100))
    as [| [] | [] p]; try contradiction M1.
  exists p, p'. cbn in M1, M2. repeat split; tauto.
Qed.

Lemma percentage_grows_within_0_and_100_witness :
  exists p p' : Q,
    percentage (session 1 3) = F64.Fin false p
    /\ percentage (session 2 3) = F64.Fin false p'
    /\ (0 <= p)%Q /\ (p <= p')%Q /\ (p' <= 100)%Q.
Proof.
  apply (percentage_grows_within_0_and_100 (session 1 3) (session 2 3));
    simpl; [reflexivity | lia | lia | lia].
Defined.

(** X3. A session that has completed no byte is never ready for playback,
    whatever its length, zero included. *)
Theorem not_ready_without_bytes (c : Client) :
  Torrent_BytesCompleted (Torrent c) = 0%Z -> ReadyForPlayback c = false.
Proof.
  intros Hb. unfold ReadyForPlayback, percentage. rewrite Hb.
  change (F64.of_int 0) with (F64.Fin false 0).
  assert (Z0 : forall s, F64.gtb (F64.mul (F64.Fin s 0) (F64.of_int 100)) (F64.of_int 5) = false).
  { intros []; vm_compute; reflexivity. }
  assert (P0 : forall s q, (q == 0)%Q -> F64.pack s q = F64.Fin s 0).
  { intros s q E. rewrite (F64Facts.pack_compat s q 0 E). reflexivity. }
  unfold F64.of_int.
  destruct (F64Facts.pack_cases (Torrent_Length (Torrent c) <? 0)%Z
              (inject_Z (Z.abs (Torrent_Length (Torrent c))))) as [[-> _] | [-> _]].
  - cbn [F64.div]. apply Z0.
  - cbn [F64.div]. change (F64.is_zero 0) with true.
    destruct (F64.is_zero _) eqn:Z; [reflexivity|].
    rewrite P0; [apply Z0|]. unfold Qdiv. ring.
Qed.

Lemma not_ready_without_bytes_witness : ReadyForPlayback (session 0 1000) = false.
Proof. apply (not_ready_without_bytes (session 0 1000)). reflexivity. Defined.

(** X4. [Render] changes nothing of the client but the stored sample, and a
    second [Render] with no progress in between reports a speed of 0. *)
Theorem Render_again_reports_zero (humanize_Bytes : Z -> string) (c : Client) :
  let c' := fst (Render humanize_Bytes c) in
  Client_ c' = Client_ c /\ Torrent c' = Torrent c /\ Port c' = Port c
  /\ speed_bytes c' = 0%Z
  /\ Progress (fst (Render humanize_Bytes c')) = Progress c'.
Proof.
  cbv zeta. unfold Render, speed_bytes, int64_sub. cbn [fst set_Progress Torrent Progress
    Client_ Port].
  rewrite Z.sub_diag. repeat split; reflexivity.
Qed.

(** X5. Over two consecutive samples the reported differences add up to the
    progress made since the first stored sample: nothing is counted twice
    and nothing is lost between two calls of [Render]. *)
Theorem Render_differences_add_up (humanize_Bytes : Z -> string) (c : Client)
  (b1 b2 : Z) :
  (0 <= Progress c <= b1)%Z -> (b1 <= b2 < 2 ^ 63)%Z ->
  let c1 := progressed b1 c in
  let c2 := progressed b2 (fst (Render humanize_Bytes c1)) in
  (speed_bytes c1 + speed_bytes c2 = b2 - Progress c)%Z
  /\ Progress (fst (Render humanize_Bytes c2)) = b2.
Proof.
  intros H1 H2 c1 c2. split; [| reflexivity].
  unfold c2, c1, speed_bytes, Render, progressed.
  cbn [fst set_Progress set_Torrent Torrent Progress Torrent_BytesCompleted
       Torrent_set_BytesCompleted].
  rewrite !uint64_int64_sub_small by lia. lia.
Qed.

Lemma Render_differences_add_up_witness :
  (speed_bytes (progressed 300 (session 0 1000))
   + speed_bytes (progressed 450 (fst (Render (fun _ => "?") (progressed 300 (session 0 1000)))))
   = 450)%Z.
Proof.
  apply (Render_differences_add_up (fun _ => "?") (session 0 1000) 300 450);
    simpl; lia.
Defined.

(** X6. The number [Render] hands to [humanize.Bytes] for the speed is an
    unsigned 64-bit number; should the stored sample exceed the current one,
    the conversion [uint64] wraps the negative difference around to [2^64]
    minus the shortfall. *)
Theorem speed_bytes_wraps_around (c : Client) :
  (0 <= Torrent_BytesCompleted (Torrent c) < Progress c)%Z ->
  (Progress c < 2 ^ 63)%Z ->
  (0 <= speed_bytes c < 2 ^ 64)%Z
  /\ speed_bytes c
     = (2 ^ 64 - (Progress c - Torrent_BytesCompleted (Torrent c)))%Z.
Proof.
  intros H1 H2. unfold speed_bytes, uint64, int64_sub, int64_wrap.
  set (b := Torrent_BytesCompleted (Torrent c)) in *. set (p := Progress c) in *.
  rewrite (Z.mod_small (b - p + 2 ^ 63)) by lia.
  replace (b - p + 2 ^ 63 - 2 ^ 63)%Z with (b - p)%Z by lia.
  assert (E : ((b - p) mod 2 ^ 64 = 2 ^ 64 - (p - b))%Z).
  { symmetry. apply (Z.mod_unique_pos _ _ (-1)); lia. }
  rewrite E. lia.
Qed.

Lemma speed_bytes_wraps_around_witness :
  speed_bytes (set_Progress 100 (session 40 1000)) = (2 ^ 64 - 60)%Z.
Proof.
  apply (speed_bytes_wraps_around (set_Progress 100 (session 40 1000))); simpl; lia.
Defined.


(** * Further properties of construction *)

Lemma NewClient_world (env : Env) (torrentPath : string) (port : Z) (seed : bool)
  (w : World) :
  snd (NewClient env torrentPath port seed w)
  = match torrent_NewClient_fault env (engine_config env seed) with
    | Some _ => w
    | None =>
        if String.prefix "magnet:" torrentPath then w
        else snd (fetch env torrentPath w)
    end.
Proof.
  unfold NewClient, torrent_NewClient. fold (engine_config env seed).
  destruct (torrent_NewClient_fault env (engine_config env seed)); [reflexivity|].
  destruct (String.prefix "magnet:" torrentPath).
  - unfold Client_AddMagnet. destruct (AddMagnet_outcome env torrentPath); reflexivity.
  - unfold bind at 1.
    change (if isHTTP torrentPath then downloadFile env torrentPath
            else ret (torrentPath, None))
      with (fetch env torrentPath).
    destruct (fetch env torrentPath w) as [[path [e |]] w']; [reflexivity|].
    unfold os_Stat, Client_AddTorrentFromFile, bind, read_file, ret.
    destruct (fs w' !! path) as [data |] eqn:E; [| reflexivity].
    cbn beta iota. rewrite E.
    destruct (AddTorrentFromFile_outcome env path data); reflexivity.
Qed.



(** X9. When [NewClient] succeeds, the client it returns has the port it was
    given, a stored sample of 0 and the torrent the engine added; its engine
    session is open, holds the torrent, was configured from the seed flag
    (uploading off exactly when not seeding, data in the temporary
    directory) and has received one call, the one that added the torrent. *)
Theorem NewClient_success
  (env : Env) (torrentPath : string) (port : Z) (seed : bool) (w : World) :
  let r := fst (NewClient env torrentPath port seed w) in
  result_err r = None ->
  exists cl call,
    Client_ (result_client r) = Some cl
    /\ Port (result_client r) = port /\ Progress (result_client r) = 0%Z
    /\ Session_Closed cl = false /\ Session_HasTorrent cl = true
    /\ Session_Config cl
       = {| DataDir := os_TempDir env; NoUpload := negb seed; Seed := seed |}
    /\ Session_Calls cl = [call]
    /\ ((String.prefix "magnet:" torrentPath = true
         /\ call = CallAddMagnet torrentPath
         /\ AddMagnet_outcome env torrentPath = Ok (Torrent (result_client r)))
        \/ (String.prefix "magnet:" torrentPath = false
            /\ exists path, call = CallAddTorrentFromFile path)).
Proof.
  cbv zeta. rewrite NewClient_stages.
  destruct (torrent_NewClient_fault env (engine_config env seed)); [discriminate|].
  destruct (String.prefix "magnet:" torrentPath).
  { destruct (AddMagnet_outcome env torrentPath) as [t | e]; [| discriminate].
    intros _. eexists _, _. repeat (split; [reflexivity|]). left. auto. }
  destruct (fetch env torrentPath w) as [[path [e |]] w']; [discriminate|].
  destruct (fs w' !! path) as [data |]; [| discriminate].
  destruct (AddTorrentFromFile_outcome env path data) as [t | e]; [| discriminate].
  intros _. eexists _, _. repeat (split; [reflexivity|]). right. eauto.
Qed.

Lemma NewClient_success_witness :
  exists cl,
    Client_ (result_client (fst (NewClient sample_env "magnet:?xt=urn:btih:sample" 8080
                                   true empty_world))) = Some cl
    /\ Session_Calls cl = [CallAddMagnet "magnet:?xt=urn:btih:sample"]
    /\ NoUpload (Session_Config cl) = false.
Proof.
  destruct (NewClient_success sample_env "magnet:?xt=urn:btih:sample" 8080 true
              empty_world eq_refl)
    as (cl & call & H1 & _ & _ & _ & _ & H6 & H7 & H8).
  exists cl. split; [exact H1|]. rewrite H6. split; [| reflexivity].
  rewrite H7. destruct H8 as [(_ & -> & _) | (K & _)]; [reflexivity | discriminate K].
Defined.

(** X10. [NewClient] writes to the disk and the log only through
    [downloadFile]: for a magnet link, for a local path and when the engine
    session cannot be created it leaves both as they were. *)
Theorem NewClient_touches_the_world_only_to_download
  (env : Env) (torrentPath : string) (port : Z) (seed : bool) (w : World) :
  snd (NewClient env torrentPath port seed w)
  = if match torrent_NewClient_fault env (engine_config env seed) with
       | Some _ => false
       | None => negb (String.prefix "magnet:" torrentPath) && isHTTP torrentPath
       end
    then snd (downloadFile env torrentPath w)
    else w.
Proof.
  rewrite NewClient_world. unfold fetch.
  destruct (torrent_NewClient_fault env (engine_config env seed)); [reflexivity|].
  destruct (String.prefix "magnet:" torrentPath); [reflexivity|].
  destruct (isHTTP torrentPath); reflexivity.
Qed.

(** X11. [NewClient] never drops the torrent and never closes the engine
    session it has created, not even when it fails afterwards: the session
    of the client it returns, when there is one, is still open and has
    received at most the one call that adds the torrent. *)
Theorem NewClient_leaves_the_session_open
  (env : Env) (torrentPath : string) (port : Z) (seed : bool) (w : World)
  (cl : torrent_Client) :
  Client_ (result_client (fst (NewClient env torrentPath port seed w))) = Some cl ->
  Session_Closed cl = false
  /\ ~ In CallDrop (Session_Calls cl) /\ ~ In CallClose (Session_Calls cl)
  /\ (length (Session_Calls cl) <= 1)%nat
  /\ (Session_HasTorrent cl = true
      <-> result_err (fst (NewClient env torrentPath port seed w)) = None).
Proof.
  rewrite NewClient_stages.
  destruct (torrent_NewClient_fault env (engine_config env seed)); [discriminate|].
  assert (G : forall calls : list EngineCall, forall closed has err,
            (length calls <= 1)%nat ->
            (forall x, In x calls -> x <> CallDrop /\ x <> CallClose) ->
            closed = false -> (has = true <-> err = None) ->
            closed = false /\ ~ In CallDrop calls /\ ~ In CallClose calls
            /\ (length calls <= 1)%nat /\ (has = true <-> err = @None ClientError)).
  { intros calls closed has err H1 H2 H3 H4. repeat split; try tauto.
    - intros K. destruct (H2 _ K) as [A _]. congruence.
    - intros K. destruct (H2 _ K) as [_ A]. congruence. }
  destruct (String.prefix "magnet:" torrentPath).
  { destruct (AddMagnet_outcome env torrentPath); intros E; injection E as <-;
      apply G; cbn; try lia; try reflexivity; try (split; congruence);
      try (intros x [<- | []]; split; discriminate). }
  destruct (fetch env torrentPath w) as [[path [e |]] w'].
  { intros E; injection E as <-. apply G; cbn; try lia; try reflexivity;
      try (split; congruence); try (intros x []). }
  destruct (fs w' !! path) as [data |].
  - destruct (AddTorrentFromFile_outcome env path data); intros E; injection E as <-;
      apply G; cbn; try lia; try reflexivity; try (split; congruence);
      try (intros x [<- | []]; split; discriminate).
  - intros E; injection E as <-. apply G; cbn; try lia; try reflexivity;
      try (split; congruence); try (intros x []).
Qed.

Lemma NewClient_leaves_the_session_open_witness :
  exists cl,
    Client_ (result_client (fst (NewClient sample_env "http://example.org/a.torrent"
                                   8080 false empty_world))) = Some cl
    /\ Session_Closed cl = false /\ Session_HasTorrent cl = false.
Proof.
  eexists. split; [reflexivity|]. split; [| reflexivity].
  apply (NewClient_leaves_the_session_open sample_env "http://example.org/a.torrent"
           8080 false empty_world _ eq_refl).
Defined.

(** X12. [Close] on a client that [NewClient] returned without error drops
    the torrent and then closes the session: over its life the engine
    session has received exactly three calls, the one that added the
    torrent, [Drop] and [Close], in this order; the port, the torrent handle
    and the stored sample of the client are left as they were. *)
Theorem Close_after_NewClient
  (env : Env) (torrentPath : string) (port : Z) (seed : bool) (w : World) :
  let c := result_client (fst (NewClient env torrentPath port seed w)) in
  result_err (fst (NewClient env torrentPath port seed w)) = None ->
  exists c' cl' call,
    Close c = Some c' /\ Client_ c' = Some cl'
    /\ Session_Calls cl' = [call; CallDrop; CallClose]
    /\ call <> CallDrop /\ call <> CallClose
    /\ Session_Closed cl' = true /\ Session_HasTorrent cl' = false
    /\ Port c' = port /\ Torrent c' = Torrent c /\ Progress c' = 0%Z.
Proof.
  cbv zeta. rewrite NewClient_stages. unfold Close.
  destruct (torrent_NewClient_fault env (engine_config env seed)); [discriminate|].
  destruct (String.prefix "magnet:" torrentPath).
  { destruct (AddMagnet_outcome env torrentPath) as [t | e]; [| discriminate].
    intros _. eexists _, _, _. repeat (split; [reflexivity|]).
    split; [discriminate|]. split; [discriminate|]. repeat split; reflexivity. }
  destruct (fetch env torrentPath w) as [[path [e |]] w']; [discriminate|].
  destruct (fs w' !! path) as [data |]; [| discriminate].
  destruct (AddTorrentFromFile_outcome env path data) as [t | e]; [| discriminate].
  intros _. eexists _, _, _. repeat (split; [reflexivity|]).
  split; [discriminate|]. split; [discriminate|]. repeat split; reflexivity.
Qed.

Lemma Close_after_NewClient_witness :
  exists c' cl',
    Close (result_client (fst (NewClient sample_env "magnet:?xt=urn:btih:sample" 8080
                                 true empty_world))) = Some c'
    /\ Client_ c' = Some cl'
    /\ Session_Calls cl'
       = [CallAddMagnet "magnet:?xt=urn:btih:sample"; CallDrop; CallClose].
Proof.
  destruct (Close_after_NewClient sample_env "magnet:?xt=urn:btih:sample" 8080 true
              empty_world eq_refl)
    as (c' & cl' & call & H1 & H2 & H3 & _).
  exists c', cl'. split; [exact H1|]. split; [exact H2|].
  cbn in H1. injection H1 as <-. cbn in H2. injection H2 as <-. reflexivity.
Defined.

(** X13. For a local path, neither magnet link nor URL, [NewClient] looks the
    file up before it turns to the engine: a missing file is reported as
    "file not found" and the engine is not asked to add anything; a file
    that is there is handed to the engine, whose answer decides the result.
    Nothing is downloaded. *)
Theorem NewClient_local_file
  (env : Env) (torrentPath : string) (port : Z) (seed : bool) (w : World) :
  torrent_NewClient_fault env (engine_config env seed) = None ->
  String.prefix "magnet:" torrentPath = false ->
  isHTTP torrentPath = false ->
  let r := fst (NewClient env torrentPath port seed w) in
  snd (NewClient env torrentPath port seed w) = w
  /\ match fs w !! torrentPath with
     | None =>
         result_err r
         = Some {| Type_ := "file not found";
                   Origin := "stat " +:+ torrentPath +:+ ": no such file or directory" |}
         /\ exists cl, Client_ (result_client r) = Some cl /\ Session_Calls cl = []
     | Some data =>
         result_err r
         = match AddTorrentFromFile_outcome env torrentPath data with
           | Ok _ => None
           | Err e => Some {| Type_ := "adding torrent to the client"; Origin := e |}
           end
         /\ exists cl, Client_ (result_client r) = Some cl
                       /\ Session_Calls cl = [CallAddTorrentFromFile torrentPath]
     end.
Proof.
  intros HN HM HH r. unfold r. rewrite NewClient_world, NewClient_stages, HN, HM.
  unfold fetch. rewrite HH. cbn [ret fst snd]. split; [reflexivity|].
  destruct (fs w !! torrentPath) as [data |].
  - destruct (AddTorrentFromFile_outcome env torrentPath data);
      (split; [reflexivity | eexists; split; reflexivity]).
  - split; [reflexivity | eexists; split; reflexivity].
Qed.

Lemma NewClient_local_file_witness :
  result_err (fst (NewClient sample_env "/home/user/a.torrent" 8080 false empty_world))
  = Some {| Type_ := "file not found";
            Origin := "stat /home/user/a.torrent: no such file or directory" |}.
Proof.
  destruct (NewClient_local_file sample_env "/home/user/a.torrent" 8080 false empty_world
              eq_refl eq_refl eq_refl) as [_ H].
  cbn in H. exact (proj1 H).
Defined.

(** * Further properties of the download *)

(** X14. When the temporary file cannot be created, [downloadFile] returns
    that error with an empty name and does nothing else: no request is made,
    nothing is written or logged. [NewClient], asked for that URL, reports
    the error as "downloading torrent file" and asks the engine for nothing. *)
Theorem downloadFile_without_temp_file
  (env : Env) (URL : string) (w : World) (e : error) :
  ioutil_TempFile_outcome env (os_TempDir env) "torrent-imageviewer" = Err e ->
  downloadFile env URL w = ((EmptyString, Some e), w)
  /\ forall port seed,
       torrent_NewClient_fault env (engine_config env seed) = None ->
       String.prefix "magnet:" URL = false ->
       isHTTP URL = true ->
       let r := NewClient env URL port seed w in
       result_err (fst r) = Some {| Type_ := "downloading torrent file"; Origin := e |}
       /\ snd r = w
       /\ exists cl, Client_ (result_client (fst r)) = Some cl /\ Session_Calls cl = [].
Proof.
  intros HT.
  assert (E : downloadFile env URL w = ((EmptyString, Some e), w)).
  { unfold downloadFile, ioutil_TempFile, bind. rewrite HT. reflexivity. }
  split; [exact E|]. intros port seed HN HM HH r. unfold r.
  rewrite NewClient_world, NewClient_stages, HN, HM. unfold fetch. rewrite HH, E.
  split; [reflexivity|]. split; [reflexivity|]. eexists. split; reflexivity.
Qed.

Lemma downloadFile_without_temp_file_witness :
  downloadFile full_disk_env "http://example.org/a.torrent" empty_world
  = ((EmptyString, Some "no space left on device"), empty_world).
Proof.
  apply (downloadFile_without_temp_file full_disk_env "http://example.org/a.torrent"
           empty_world "no space left on device" eq_refl).
Defined.

(** X15. A failed download leaves its temporary file behind: empty when the
    GET failed, in which case the name returned is empty too, and holding
    the bytes copied so far when the copy failed, in which case the name is
    returned beside the error. *)
Theorem downloadFile_leaves_its_file_behind
  (env : Env) (URL : string) (w : World) (file : string) :
  ioutil_TempFile_outcome env (os_TempDir env) "torrent-imageviewer" = Ok file ->
  snd (fst (downloadFile env URL w)) <> None ->
  (exists e,
     http_Get env URL = Err e
     /\ fst (downloadFile env URL w) = (EmptyString, Some e)
     /\ fs (snd (downloadFile env URL w)) !! file = Some [])
  \/ (exists response n e,
        http_Get env URL = Ok response /\ io_Copy_fault env file = Some (n, e)
        /\ fst (downloadFile env URL w) = (file, Some e)
        /\ fs (snd (downloadFile env URL w)) !! file = Some (take n (Body response))).
Proof.
  intros HT. destruct (downloadFile_stages env URL w file HT) as [R F].
  rewrite R, F. destruct (http_Get env URL) as [response | e].
  - destruct (io_Copy_fault env file) as [[n e] |].
    + intros _. right. exists response, n, e. repeat split; reflexivity.
    + intros K. contradiction K. reflexivity.
  - intros _. left. exists e. repeat split; reflexivity.
Qed.

Lemma downloadFile_leaves_its_file_behind_witness :
  fs (snd (downloadFile offline_env "http://example.org/a.torrent" empty_world))
    !! "/tmp/torrent-imageviewer123"
  = Some [].
Proof.
  destruct (downloadFile_leaves_its_file_behind offline_env
              "http://example.org/a.torrent" empty_world "/tmp/torrent-imageviewer123"
              eq_refl ltac:(discriminate))
    as [(e & _ & _ & H) | (response & n & e & K & _)]; [exact H | discriminate K].
Defined.

(** X16. [downloadFile] writes to no file but its temporary one, and it logs
    nothing but the failures of its two deferred closes: first that of the
    response body (when a response was received), then that of the file.
    Those failures change neither what it returns nor what the file holds. *)
Theorem downloadFile_writes_only_its_file
  (env : Env) (URL : string) (w : World) (file : string) :
  ioutil_TempFile_outcome env (os_TempDir env) "torrent-imageviewer" = Ok file ->
  let w' := snd (downloadFile env URL w) in
  (forall name, name <> file -> fs w' !! name = fs w !! name)
  /\ logged w'
     = logged w
       ++ match http_Get env URL with
          | Ok _ => close_log (Body_Close_fault env)
          | Err _ => []
          end
       ++ close_log (File_Close_fault env file).
Proof.
  intros HT. cbv zeta. unfold downloadFile, ioutil_TempFile, bind. rewrite HT.
  unfold write_file, ret, deferred_file_Close, deferred_Body_Close, io_Copy,
    log_Printf, read_file, bind, write_file, ret, close_log.
  destruct (http_Get env URL) as [response | e].
  - cbn [fs]. rewrite lookup_insert_eq. cbn [default app].
    destruct (io_Copy_fault env file) as [[n e] |];
      destruct (Body_Close_fault env); destruct (File_Close_fault env file);
      cbn; (split; [intros name Hne; rewrite !lookup_insert_ne by congruence; reflexivity|]);
      rewrite <- ?app_assoc, ?app_nil_r; reflexivity.
  - destruct (File_Close_fault env file); cbn;
      (split; [intros name Hne; rewrite !lookup_insert_ne by congruence; reflexivity|]);
      rewrite ?app_nil_r; reflexivity.
Qed.

Lemma downloadFile_writes_only_its_file_witness :
  logged (snd (downloadFile sample_env "http://example.org/a.torrent" empty_world)) = [].
Proof.
  destruct (downloadFile_writes_only_its_file sample_env "http://example.org/a.torrent"
              empty_world "/tmp/torrent-imageviewer123" eq_refl) as [_ H].
  exact H.
Defined.

(** X17. No path is at once a magnet link and an http(s) URL, so the order
    in which [NewClient] tests the two does not matter. *)
Theorem magnet_link_is_no_URL (torrentPath : string) :
  String.prefix "magnet:" torrentPath = true -> isHTTP torrentPath = false.
Proof.
  destruct torrentPath as [| a rest]; [discriminate|]. intros H.
  assert (E : a = Ascii.ascii_of_nat 109).
  { cbn [String.prefix] in H.
    destruct (Ascii.ascii_dec _ a) as [E |]; [symmetry; exact E | discriminate H]. }
  rewrite E. reflexivity.
Qed.

Lemma magnet_link_is_no_URL_witness : isHTTP "magnet:?xt=urn:btih:sample" = false.
Proof. apply magnet_link_is_no_URL. reflexivity. Defined.

(** * Further properties of the file selection *)

Lemma getLargestFile_loop_length (files : list torrent_File) :
  forall target : torrent_File,
  File_Length (getLargestFile_loop files target (File_Length target))
  = fold_left Z.max (List.map File_Length files) (File_Length target).
Proof.
  induction files as [| file files IH]; intros target; cbn; [reflexivity|].
  destruct (Z.ltb_spec (File_Length target) (File_Length file)) as [H | H].
  - rewrite IH. rewrite Z.max_r by lia. reflexivity.
  - rewrite IH. rewrite Z.max_l by lia. reflexivity.
Qed.

(** X18. The length of the file [getLargestFile] returns is the largest
    length among the files of the session, and 0 when there is none; it is
    the same for every order of the files, though the file itself may then
    be another one of that length. *)
Theorem getLargestFile_length_is_the_maximum (c : Client) :
  File_Length (getLargestFile c) = max_length (Torrent_Files (Torrent c))
  /\ (forall f, In f (Torrent_Files (Torrent c)) ->
        (File_Length f <= File_Length (getLargestFile c))%Z)
  /\ (forall c' : Client,
        Permutation (Torrent_Files (Torrent c)) (Torrent_Files (Torrent c')) ->
        File_Length (getLargestFile c') = File_Length (getLargestFile c)).
Proof.
  assert (L : forall files, File_Length (getLargestFile_loop files File_zero 0)
                            = max_length files).
  { intros files. apply (getLargestFile_loop_length files File_zero). }
  assert (U : forall files (m : Z) f, In f files ->
              (File_Length f <= fold_left Z.max (List.map File_Length files) m)%Z).
  { induction files as [| x files IH]; intros m f []; cbn.
    - subst x. clear IH. generalize (Z.max m (File_Length f)), (Z.le_max_r m (File_Length f)).
      induction files as [| y files IH]; intros z Hz; cbn; [exact Hz|].
      apply IH. lia.
    - apply IH. assumption. }
  assert (P : forall files files' : list torrent_File, Permutation files files' ->
              forall m, fold_left Z.max (List.map File_Length files') m
                        = fold_left Z.max (List.map File_Length files) m).
  { intros files files' HP. induction HP as [| x l l' _ IH | x y l | l l' l'' _ IH1 _ IH2];
      intros m; cbn.
    - reflexivity.
    - apply IH.
    - f_equal. lia.
    - rewrite IH2. apply IH1. }
  unfold getLargestFile. rewrite !L. split; [reflexivity|]. split.
  - intros f Hf. apply U. exact Hf.
  - intros c' HP. rewrite L. apply P. exact HP.
Qed.

(** * Further properties of the initial readahead *)

(** X19. The goroutine of [NewClient] touches priorities only: it leaves the
    name, the byte counts, the files, the connections, the number of pieces
    and the completion of every piece as they are after [DownloadAll], so
    the percentage and the gate of a client are the same before and after
    it. Inside the prefix it assigns the readahead priority whatever the
    piece had, a higher priority included. *)
Theorem initial_readahead_touches_priorities_only
  (env : Env) (t t' : torrent_Torrent) (c : Client) :
  NewClient_func1 env t = Some t' ->
  Torrent_Name t' = Torrent_Name t
  /\ Torrent_BytesCompleted t' = Torrent_BytesCompleted t
  /\ Torrent_Length t' = Torrent_Length t
  /\ Torrent_Files t' = Torrent_Files t
  /\ Torrent_Conns t' = Torrent_Conns t
  /\ (forall j : nat,
        Complete <$> Torrent_Pieces t' !! j
        = Complete <$> DownloadAll_pieces env (Torrent_Pieces t) !! j)
  /\ (forall (j : nat) (p : piece),
        (j < length (DownloadAll_pieces env (Torrent_Pieces t)) / 100 * 5)%nat ->
        DownloadAll_pieces env (Torrent_Pieces t) !! j = Some p ->
        Priority <$> Torrent_Pieces t' !! j = Some PiecePriorityReadahead)
  /\ percentage (set_Torrent t' c) = percentage (set_Torrent t c)
  /\ ReadyForPlayback (set_Torrent t' c) = ReadyForPlayback (set_Torrent t c)
  /\ getLargestFile (set_Torrent t' c) = getLargestFile (set_Torrent t c).
Proof.
  unfold NewClient_func1. destruct (Torrent_GotInfo t); [| discriminate].
  intros E. injection E as <-.
  cbn [Torrent_set_Pieces Torrent_DownloadAll Torrent_Name Torrent_BytesCompleted
       Torrent_Length Torrent_Files Torrent_Conns Torrent_Pieces].
  set (ps := DownloadAll_pieces env (Torrent_Pieces t)).
  assert (Hk : (length ps / 100 * 5 - 0 <= length ps)%nat).
  { pose proof (Nat.div_mod_eq (length ps) 100) as D.
    set (q := (length ps / 100)%nat) in *. lia. }
  repeat (split; [reflexivity|]). split; [| split; [| repeat split; reflexivity]].
  - intros j. rewrite readahead_loop_lookup by exact Hk.
    destruct (decide _); [| reflexivity].
    destruct (ps !! j); reflexivity.
  - intros j p Hj Hp. rewrite readahead_loop_lookup by exact Hk.
    destruct (decide (0 <= j < length ps / 100 * 5)%nat) as [K | K]; [| lia].
    rewrite Hp. reflexivity.
Qed.

Lemma initial_readahead_touches_priorities_only_witness :
  exists t',
    NewClient_func1 sample_env (sample_torrent 0 1000 [] 200) = Some t'
    /\ Torrent_Length t' = 1000%Z
    /\ Priority <$> Torrent_Pieces t' !! 0%nat = Some PiecePriorityReadahead.
Proof.
  eexists. split; [reflexivity|].
  destruct (initial_readahead_touches_priorities_only sample_env
              (sample_torrent 0 1000 [] 200) _ (session 0 1000) eq_refl)
    as (_ & _ & H3 & _ & _ & _ & H7 & _).
  split; [exact H3|].
  apply (H7 0%nat {| Priority := PiecePriorityReadahead; Complete := false |});
    [vm_compute; lia | reflexivity].
Defined.
